(** * Load Video: the demux / decode / pairing engine of [load_video.py]

    A shallow embedding of [load_video_node] and of the generator [iterator]
    it returns (backend/src/packages/chaiNNer_standard/image/video_frames/
    load_video.py), with the properties of its natural-language
    specification stated over it.

    Layout:
      1-4.   the program: Python numbers (Fraction, float, round, int), the
             media container as the code reads it, set-up, and the
             generator [iterator] as a resumable state machine;
      5-6.   the specification's wording as definitions, sample containers;
      7-8.   the generator step by step, and whole runs;
      9-14.  the properties of the specification. *)

From Stdlib Require Import ZArith QArith Qabs Qpower Bool List String Lia.
Import ListNotations.

Local Open Scope Z_scope.

(* ================================================================== *)
(** ** 1. Python numbers *)

Module PyNum.

(** [round(x)] of Python on an exact ratio: the nearest integer, a tie going
    to the even neighbour ([Fraction.__round__], and the decimal rounding
    inside [float.__round__]). *)
Definition round_half_even (q : Q) : Z :=
  let n := Qnum q in
  let d := Z.pos (Qden q) in
  let fl := n / d in
  let r := n mod d in
  match 2 * r ?= d with
  | Lt => fl
  | Gt => fl + 1
  | Eq => if Z.even fl then fl else fl + 1
  end.

(** [10 ** ndigits] for the only [ndigits] the source uses. *)
Definition shift2 : Z := 100.

(** [round(f, 2)] for [f : Fraction]:
    [Fraction(round(f * shift), shift)] with [shift = 10 ** 2]. *)
Definition round_fraction2 (q : Q) : Q :=
  Qred (round_half_even (q * inject_Z shift2) # 100).

(** A finite binary64 value is held as the rational it denotes.
    [nearest_pos q] rounds a positive rational to the nearest value with a
    53-bit significand and an exponent of at least -1074 (so subnormals and
    underflow to zero are covered), ties to even; [None] is the overflow
    case, a result of magnitude [2 ^ 1024] or more. *)
Definition nearest_pos (q : Q) : option Q :=
  let n := Qnum q in
  let d := Z.pos (Qden q) in
  let k0 := Z.log2 n - Z.log2 d in
  (* k = floor (log2 q) *)
  let k := if Qle_bool (inject_Z 2 ^ k0) q then k0 else k0 - 1 in
  let e := Z.max (k - 52) (-1074) in
  let m := round_half_even (q / (inject_Z 2 ^ e)) in
  let v := Qred (inject_Z m * inject_Z 2 ^ e) in
  if Qle_bool (inject_Z 2 ^ 1024) v then None else Some v.

Definition to_double (q : Q) : option Q :=
  match Qnum q with
  | Z0 => Some 0%Q
  | Z.pos _ => nearest_pos q
  | Z.neg _ => option_map Qopp (nearest_pos (Qopp q))
  end.

(** [a / b] on Python ints with [b > 0]: the correctly rounded float, or
    OverflowError ([None]). *)
Definition int_truediv (a : Z) (b : positive) : option Q := to_double (a # b).

(** [x * y] on floats; [None] is an infinite result. *)
Definition float_mul (x y : Q) : option Q := to_double (x * y).

(** [round(x, 2)] for a finite float [x]: the exact value is rounded to two
    decimals, ties to even, and the decimal is read back as a float.  The
    result is never larger in magnitude than a float next to [x], so it is
    finite; the [None] branch is dead and kept as [x]. *)
Definition round_float2 (x : Q) : Q :=
  match to_double (round_half_even (x * inject_Z shift2) # 100) with
  | Some y => y
  | None => x
  end.

(** [int(x)] for a finite float: truncation toward zero. *)
Definition int_of_float (x : Q) : Z := Z.quot (Qnum x) (Z.pos (Qden x)).

(** [math.floor], used only to state properties. *)
Definition floor (x : Q) : Z := Qnum x / Z.pos (Qden x).

(** The two kinds of number [fps] can hold. *)
Inductive pynum : Type :=
| PyFraction (q : Q)   (* fractions.Fraction *)
| PyFloat (x : Q).     (* float, a binary64 value *)

Definition value (v : pynum) : Q :=
  match v with PyFraction q => q | PyFloat x => x end.

(** [Fraction.as_integer_ratio()]: numerator and denominator in lowest
    terms. *)
Definition as_integer_ratio (q : Q) : Z * positive :=
  (Qnum (Qred q), Qden (Qred q)).

(** [bool(f)] for [f : Fraction | None]. *)
Definition truthy (c : option Q) : bool :=
  match c with
  | None => false
  | Some q => negb (Qnum q =? 0)
  end.

(** [a or b]. *)
Definition py_or (a b : option Q) : option Q := if truthy a then a else b.

End PyNum.

(* ================================================================== *)
(** ** 2. Exceptions and the media container *)

(** The exceptions the code can end with.  The specification's
    RateResolutionError is the [RuntimeError] raised by the source;
    ContainerOpenError and DecodeError are errors of the media library
    ([AVError]). *)
Inductive exn : Type :=
| RuntimeError (msg : string)
| TypeError
| IndexError
| AttributeError
| OverflowError
| AVError (what : string).

Definition result (A : Type) : Type := (exn + A)%type.

Definition ret {A} (a : A) : result A := inr a.
Definition raise {A} (e : exn) : result A := inl e.
Definition bind {A B} (c : result A) (k : A -> result B) : result B :=
  match c with
  | inl e => inl e
  | inr a => k a
  end.

Declare Scope py_scope.
Delimit Scope py_scope with py.
Notation "x <- c ;; k" := (bind c (fun x => k))
  (at level 61, c at next level, right associativity) : py_scope.

(** [l[0]] on a Python list. *)
Definition first_item {A} (l : list A) : result A :=
  match l with
  | [] => raise IndexError
  | a :: _ => ret a
  end.

Module Av.

(** A decoded frame, audio or video; the payload is opaque to the node. *)
Definition frame : Type := nat.

(** [frame.to_ndarray(format="bgr24")]. *)
Inductive ndarray : Type := Bgr24 (f : frame).
Definition to_ndarray (f : frame) : ndarray := Bgr24 f.

Record codec_context : Type := {
  framerate : option Q;
  rate : option Q;
  encoded_frame_count : option Z
}.

Record video_stream : Type := {
  video_codec_context : codec_context;
  average_rate : option Q;
  guessed_rate : option Q;
  base_rate : option Q
}.

Record audio_stream : Type := {
  codec_name : string
}.

(** What [packet.decode()] does: a list of frames or an error. *)
Inductive decode_result : Type :=
| Decoded (frames : list frame)
| DecodeRaises (e : exn).

Record packet : Type := {
  dts : option Z;
  stream_type : string;        (* packet.stream.type *)
  decode : decode_result
}.

(** What pulling the next item of [container.demux(...)] does. *)
Inductive demux_item : Type :=
| Packet (p : packet)
| DemuxRaises (e : exn).

(** The opened container object: the metadata the node reads, the packets
    [demux] has still to deliver, in arrival order, and how many times
    [close()] has been called on it. *)
Record container : Type := {
  streams_video : list video_stream;
  streams_audio : list audio_stream;
  duration : option Z;         (* microseconds *)
  demux : list demux_item;
  closed : nat
}.

Definition with_demux (c : container) (todo : list demux_item) : container :=
  {| streams_video := streams_video c;
     streams_audio := streams_audio c;
     duration := duration c;
     demux := todo;
     closed := closed c |}.

Definition with_audio (c : container) (a : list audio_stream) : container :=
  {| streams_video := streams_video c;
     streams_audio := a;
     duration := duration c;
     demux := demux c;
     closed := closed c |}.

(** What the file system holds at the path: [av.open] raises on a file
    that is no media container, and hands out a fresh, never closed
    container otherwise. *)
Inductive media_file : Type :=
| Corrupt (e : exn)
| Media (video : list video_stream) (audio : list audio_stream)
        (duration : option Z) (packets : list demux_item).

Definition open (f : media_file) : result container :=
  match f with
  | Corrupt e => raise e
  | Media v a d ps =>
      ret {| streams_video := v; streams_audio := a; duration := d;
             demux := ps; closed := 0%nat |}
  end.

End Av.

(* ================================================================== *)
(** ** 3. Set-up: [load_video_node] up to its [return] *)

Import PyNum.

(** Modelled from the spec: [split_file_path] of nodes.utils.utils is not
    part of the sources at hand; the path is held by the directory, the file
    name and the extension it splits into. *)
Record Path : Type := {
  path_dir : string;
  path_name : string;
  path_ext : string
}.

Definition split_file_path (p : Path) : string * string * string :=
  (path_dir p, path_name p, path_ext p).

Definition py_round2 (v : pynum) : pynum :=
  match v with
  | PyFraction q => PyFraction (round_fraction2 q)
  | PyFloat x => PyFloat (round_float2 x)
  end.

(** [float(v)]. *)
Definition py_float (v : pynum) : result Q :=
  match v with
  | PyFloat x => ret x
  | PyFraction q =>
      let '(n, d) := as_integer_ratio q in
      match int_truediv n d with
      | Some x => ret x
      | None => raise OverflowError
      end
  end.

(** Lines 76-87: the frame rate. *)
Definition resolve_fps (v : Av.video_stream) : result pynum :=
  let codec_context := Av.video_codec_context v in
  let fps := py_or (Av.framerate codec_context) (Av.rate codec_context) in
  let rate :=
    py_or (py_or (Av.average_rate v) (Av.guessed_rate v)) (Av.base_rate v) in
  match fps, rate with
  | None, None => raise (RuntimeError "Failed to get video fps")
  | _, _ =>
      (fps <- (if truthy fps
               then match fps with
                    | Some q => ret (PyFraction q)
                    | None => raise AttributeError   (* not reached *)
                    end
               else match rate with
                    | None => raise AttributeError   (* None.as_integer_ratio *)
                    | Some r =>
                        let '(n, d) := as_integer_ratio r in
                        match int_truediv n d with
                        | Some x => ret (PyFloat x)
                        | None => raise OverflowError
                        end
                    end) ;;
       ret (py_round2 fps))%py
  end.

(** Lines 88-94: the frame count before the limit is applied. *)
Definition count_frames (c : Av.container) (codec_context : Av.codec_context)
    (fps : pynum) : result Z :=
  (let frame_count := Av.encoded_frame_count codec_context in
   duration <- match Av.duration c with
               | None => raise TypeError          (* None / 1000000 *)
               | Some d =>
                   match int_truediv d 1000000 with
                   | Some s => ret s
                   | None => raise OverflowError
                   end
               end ;;
   let estimate :=
     (f <- py_float fps ;;
      match float_mul duration f with
      | Some x => ret (int_of_float x)
      | None => raise OverflowError               (* int(inf) *)
      end) in
   match frame_count with
   | None => estimate
   | Some n => if n =? 0 then estimate else ret n
   end)%py.

(** The variables the generator closes over, beside the container. *)
Record closure : Type := {
  use_limit : bool;
  limit : Z;
  in_stream_a : Av.audio_stream
}.

(* ================================================================== *)
(** ** 4. The generator [iterator] *)

(** One element of the sequence:
    [in_frame, index, (audio_arr, in_stream_a.codec.name)]. *)
Record yielded : Type := {
  in_frame : Av.ndarray;
  yield_index : Z;
  yield_audio : list Av.frame;
  yield_codec : string
}.

(** Where the generator stands between two calls of [next]: not started,
    suspended at the [yield] with the rest of [packet.decode()] still to
    visit, or over. *)
Inductive gen_pc : Type :=
| Created
| AtYield (packet_type : string) (todo : list Av.frame)
| Finished.

Record gen_state : Type := {
  pc : gen_pc;
  index : Z;
  audio_arr : list Av.frame;
  container : Av.container
}.

Inductive next_result : Type :=
| Yield (y : yielded)
| StopIteration
| Raised (e : exn).

(** How the inner loop [for frame in packet.decode()] is left: at the
    [yield], or at its end. *)
Inductive frames_exit : Type :=
| Suspend (y : yielded) (todo : list Av.frame)
          (index : Z) (audio_arr : list Av.frame)
| Exhausted (index : Z) (audio_arr : list Av.frame).

Fixpoint for_frame (env : closure) (packet_type : string)
    (frames : list Av.frame) (index : Z) (audio_arr : list Av.frame)
  : frames_exit :=
  match frames with
  | [] => Exhausted index audio_arr
  | frame :: todo =>
      if (packet_type =? "video")%string then
        Suspend {| in_frame := Av.to_ndarray frame;
                   yield_index := index;
                   yield_audio := audio_arr;
                   yield_codec := Av.codec_name (in_stream_a env) |}
                todo index audio_arr
      else if (packet_type =? "audio")%string then
        for_frame env packet_type todo index (audio_arr ++ [frame])
      else
        for_frame env packet_type todo index audio_arr
  end.

(** How one turn of the outer loop is left. *)
Inductive body_exit : Type :=
| Continue (index : Z) (audio_arr : list Av.frame)
| Break
| BodyRaised (e : exn)
| BodySuspend (y : yielded) (todo : list Av.frame)
              (index : Z) (audio_arr : list Av.frame).

(** Lines 108-122, the body of [for packet in container.demux(...)], from
    its top. *)
Definition packet_body (env : closure) (packet : Av.packet)
    (index : Z) (audio_arr : list Av.frame) : body_exit :=
  match Av.dts packet with
  | None => Continue index audio_arr
  | Some _ =>
      if use_limit env && (limit env <=? index) then Break
      else
        match Av.decode packet with
        | Av.DecodeRaises e => BodyRaised e
        | Av.Decoded frames =>
            match for_frame env (Av.stream_type packet) frames
                            index audio_arr with
            | Suspend y todo i a => BodySuspend y todo i a
            | Exhausted i a => Continue i a
            end
        end
  end.

Definition stopped (r : next_result) (c : Av.container)
    (todo : list Av.demux_item) (index : Z) (audio_arr : list Av.frame)
  : next_result * gen_state :=
  (r, {| pc := Finished; index := index; audio_arr := audio_arr;
         container := Av.with_demux c todo |}).

(** The outer loop, run up to the next [yield] or to the end. *)
Fixpoint for_packet (env : closure) (c : Av.container)
    (items : list Av.demux_item) (index : Z) (audio_arr : list Av.frame)
  : next_result * gen_state :=
  match items with
  | [] => stopped StopIteration c [] index audio_arr
  | Av.DemuxRaises e :: todo => stopped (Raised e) c todo index audio_arr
  | Av.Packet packet :: todo =>
      match packet_body env packet index audio_arr with
      | Continue i a => for_packet env c todo i a
      | Break => stopped StopIteration c todo index audio_arr
      | BodyRaised e => stopped (Raised e) c todo index audio_arr
      | BodySuspend y rest i a =>
          (Yield y,
           {| pc := AtYield (Av.stream_type packet) rest;
              index := i; audio_arr := a;
              container := Av.with_demux c todo |})
      end
  end.

(** [next(g)]: run the generator to its next [yield].  Resuming after a
    [yield] first runs the two statements below it, [index += 1] and
    [audio_arr = []], then goes on with the inner loop. *)
Definition gen_next (env : closure) (st : gen_state)
  : next_result * gen_state :=
  match pc st with
  | Created =>
      for_packet env (container st) (Av.demux (container st)) 0 []
  | AtYield packet_type frames =>
      let index := index st + 1 in
      let audio_arr := @nil Av.frame in
      match for_frame env packet_type frames index audio_arr with
      | Suspend y todo i a =>
          (Yield y,
           {| pc := AtYield packet_type todo;
              index := i; audio_arr := a; container := container st |})
      | Exhausted i a =>
          for_packet env (container st) (Av.demux (container st)) i a
      end
  | Finished => (StopIteration, st)
  end.

(** [iterator()]: a fresh generator over the container. *)
Definition iterator (c : Av.container) : gen_state :=
  {| pc := Created; index := 0; audio_arr := []; container := c |}.

(** A consumer that asks for at most [n] elements: the elements it
    receives, how its last call of [next] ended when no element came, and
    the generator it leaves behind. *)
Fixpoint pull (n : nat) (env : closure) (st : gen_state)
  : list yielded * option next_result * gen_state :=
  match n with
  | O => ([], None, st)
  | S k =>
      match gen_next env st with
      | (Yield y, st') =>
          let '(ys, last, st'') := pull k env st' in (y :: ys, last, st'')
      | (r, st') => ([], Some r, st')
      end
  end.

Definition emitted (n : nat) (env : closure) (st : gen_state)
  : list yielded := fst (fst (pull n env st)).

Definition left_behind (n : nat) (env : closure) (st : gen_state)
  : gen_state := snd (pull n env st).

Definition ending (n : nat) (env : closure) (st : gen_state)
  : option next_result := snd (fst (pull n env st)).

(** [Iterator.from_iter(iter_supplier=iterator, expected_length=...)]. *)
Record Iterator : Type := {
  iter_env : closure;
  iter_supplier : gen_state;
  expected_length : Z
}.

Record node_output : Type := {
  out_iterator : Iterator;
  video_dir : string;
  video_name : string;
  out_fps : pynum
}.

(** Lines 72-129 of [load_video_node], on the opened container. *)
Definition set_up (path : Path) (container : Av.container)
    (use_limit : bool) (limit : Z) : result node_output :=
  (let '(video_dir, video_name, _) := split_file_path path in
   v <- first_item (Av.streams_video container) ;;
   let codec_context := Av.video_codec_context v in
   fps <- resolve_fps v ;;
   frame_count <- count_frames container codec_context fps ;;
   in_stream_v <- first_item (Av.streams_video container) ;;
   in_stream_a <- first_item (Av.streams_audio container) ;;
   let frame_count :=
     if use_limit then Z.min frame_count limit else frame_count in
   ret {| out_iterator :=
            {| iter_env := {| use_limit := use_limit; limit := limit;
                              in_stream_a := in_stream_a |};
               iter_supplier := iterator container;
               expected_length := frame_count |};
          video_dir := video_dir;
          video_name := video_name;
          out_fps := fps |})%py.

(** [load_video_node]: what it returns or raises, and the container object
    [av.open] created, if any, as the call leaves it. *)
Definition load_video_node (path : Path) (file : Av.media_file)
    (use_limit : bool) (limit : Z)
  : result node_output * option Av.container :=
  match Av.open file with
  | inl e => (inl e, None)
  | inr container => (set_up path container use_limit limit, Some container)
  end.

(* ================================================================== *)
(** ** 5. The specification's wording *)

Module Spec.

(** The decoded units of a container in arrival order: what the packets
    with a decode timestamp decode to, up to the first error.  Units of a
    stream that is neither video nor audio are of no concern. *)
Inductive decoded_unit : Type :=
| AudioUnit (f : Av.frame)
| VideoUnit (img : Av.ndarray).

Definition units_of_packet (packet_type : string) (frames : list Av.frame)
  : list decoded_unit :=
  if (packet_type =? "video")%string then
    map (fun f => VideoUnit (Av.to_ndarray f)) frames
  else if (packet_type =? "audio")%string then
    map AudioUnit frames
  else [].

Fixpoint decoded_units (items : list Av.demux_item) : list decoded_unit :=
  match items with
  | [] => []
  | Av.DemuxRaises _ :: _ => []
  | Av.Packet p :: todo =>
      match Av.dts p, Av.decode p with
      | None, _ => decoded_units todo
      | Some _, Av.DecodeRaises _ => []
      | Some _, Av.Decoded frames =>
          units_of_packet (Av.stream_type p) frames ++ decoded_units todo
      end
  end.

Definition audio_of (us : list decoded_unit) : list Av.frame :=
  flat_map (fun u => match u with AudioUnit f => [f] | VideoUnit _ => [] end)
           us.

(** "The full ordered sequence of audio sub-frames decoded from the
    container". *)
Definition decoded_audio (items : list Av.demux_item) : list Av.frame :=
  audio_of (decoded_units items).

(** "The concatenation of all per-frame attached-audio lists, in emission
    order". *)
Definition attached_audio (ys : list yielded) : list Av.frame :=
  flat_map yield_audio ys.

(** An emitted element laid out as the units it carries: its attached audio,
    then its video frame. *)
Definition lay_out (y : yielded) : list decoded_unit :=
  map AudioUnit (yield_audio y) ++ [VideoUnit (in_frame y)].

(** The five rate candidates in the order of the specification. *)
Definition candidates (v : Av.video_stream) : list (option Q) :=
  [ Av.framerate (Av.video_codec_context v);
    Av.rate (Av.video_codec_context v);
    Av.average_rate v;
    Av.guessed_rate v;
    Av.base_rate v ].

Fixpoint first_non_null (cs : list (option Q)) : option Q :=
  match cs with
  | [] => None
  | Some q :: _ => Some q
  | None :: cs => first_non_null cs
  end.

(** The first candidate that is neither null nor zero. *)
Fixpoint first_usable (cs : list (option Q)) : option Q :=
  match cs with
  | [] => None
  | c :: cs => if truthy c then c else first_usable cs
  end.

(** A ratio "converted by true division of numerator by denominator" and
    "rounded to 2 decimal places". *)
Definition divided_and_rounded (q : Q) : result pynum :=
  let '(n, d) := as_integer_ratio q in
  match int_truediv n d with
  | Some x => ret (PyFloat (round_float2 x))
  | None => raise OverflowError
  end.

(** The Rate Resolver as the specification words it: the first non-null
    candidate wins, is divided out and rounded. *)
Definition rate_resolver (v : Av.video_stream) : result pynum :=
  match first_non_null (candidates v) with
  | None => raise (RuntimeError "Failed to get video fps")
  | Some q => divided_and_rounded q
  end.

(** "Never zero or negative". *)
Definition positive_rate (fps : pynum) : Prop := (0 < value fps)%Q.

(** The audio-attachment invariant as worded: in a run that came to its end,
    the attached lists add up to all the audio decoded from the container. *)
Definition audio_attachment_invariant (env : closure) (c : Av.container)
  : Prop :=
  forall n, ending n env (iterator c) = Some StopIteration ->
    attached_audio (emitted n env (iterator c)) = decoded_audio (Av.demux c).

(** "The container is closed exactly once". *)
Definition closed_exactly_once (c : Av.container) : Prop :=
  Av.closed c = 1%nat.

(** "At most L video frames are yielded, every yielded frame index is
    strictly less than L". *)
Definition limit_respected (l : Z) (ys : list yielded) : Prop :=
  Z.of_nat (List.length ys) <= l /\ Forall (fun y => yield_index y < l) ys.

(** A video packet that decodes to one frame at most. *)
Definition single_frame (item : Av.demux_item) : Prop :=
  match item with
  | Av.Packet p =>
      match Av.decode p with
      | Av.Decoded (_ :: _ :: _) => (Av.stream_type p =? "video")%string = false
      | _ => True
      end
  | Av.DemuxRaises _ => True
  end.

End Spec.

(* ================================================================== *)
(** ** 6. Sample containers *)

Module Sample.

Definition clip_path : Path :=
  {| path_dir := "/videos"; path_name := "clip"; path_ext := ".mp4" |}.

Definition aac : Av.audio_stream := {| Av.codec_name := "aac" |}.

Definition rates (framerate rate average guessed base : option Q)
  : Av.video_stream :=
  {| Av.video_codec_context :=
       {| Av.framerate := framerate; Av.rate := rate;
          Av.encoded_frame_count := None |};
     Av.average_rate := average;
     Av.guessed_rate := guessed;
     Av.base_rate := base |}.

(** A 24 fps stream, the rate known from the stream only. *)
Definition stream24 : Av.video_stream :=
  rates None None (Some (24 # 1)) (Some (24 # 1)) (Some (24 # 1)).

Definition counted (v : Av.video_stream) (n : option Z) : Av.video_stream :=
  {| Av.video_codec_context :=
       {| Av.framerate := Av.framerate (Av.video_codec_context v);
          Av.rate := Av.rate (Av.video_codec_context v);
          Av.encoded_frame_count := n |};
     Av.average_rate := Av.average_rate v;
     Av.guessed_rate := Av.guessed_rate v;
     Av.base_rate := Av.base_rate v |}.

Definition video_packet (t : Z) (frames : list Av.frame) : Av.demux_item :=
  Av.Packet {| Av.dts := Some t; Av.stream_type := "video";
               Av.decode := Av.Decoded frames |}.

Definition audio_packet (t : Z) (frames : list Av.frame) : Av.demux_item :=
  Av.Packet {| Av.dts := Some t; Av.stream_type := "audio";
               Av.decode := Av.Decoded frames |}.

(** The packet that ends the stream: it carries no decode timestamp. *)
Definition flush : Av.packet :=
  {| Av.dts := None; Av.stream_type := "video";
     Av.decode := Av.Decoded [99%nat] |}.

Definition flush_packet : Av.demux_item := Av.Packet flush.

Definition clip (packets : list Av.demux_item) : Av.media_file :=
  Av.Media [stream24] [aac] (Some 10000000) packets.

Definition opened (packets : list Av.demux_item) : Av.container :=
  {| Av.streams_video := [stream24]; Av.streams_audio := [aac];
     Av.duration := Some 10000000; Av.demux := packets;
     Av.closed := 0%nat |}.

(** What [load_video_node] returns for [clip packets]. *)
Definition loaded (ul : bool) (l n : Z) (packets : list Av.demux_item)
  : node_output :=
  {| out_iterator :=
       {| iter_env := {| use_limit := ul; limit := l; in_stream_a := aac |};
          iter_supplier := iterator (opened packets);
          expected_length := n |};
     video_dir := "/videos";
     video_name := "clip";
     out_fps := PyFloat (24 # 1) |}.

Definition unlimited : closure :=
  {| use_limit := false; limit := 10; in_stream_a := aac |}.

Definition limited (l : Z) : closure :=
  {| use_limit := true; limit := l; in_stream_a := aac |}.

(** audio 1 2 | video 10 | audio 3 | (no dts) | video 11 | audio 4 *)
Definition interleaved : list Av.demux_item :=
  [ audio_packet 0 [1%nat; 2%nat]; video_packet 0 [10%nat];
    audio_packet 1 [3%nat]; flush_packet; video_packet 1 [11%nat];
    audio_packet 2 [4%nat] ].

End Sample.

(* ================================================================== *)
(** ** 7. The generator, step by step *)

Import Spec.

(** What a generator has still to go through, as decoded units, and the
    index its next element will carry. *)
Definition pending (st : gen_state) : list decoded_unit :=
  match pc st with
  | Created => decoded_units (Av.demux (container st))
  | AtYield packet_type todo =>
      units_of_packet packet_type todo
        ++ decoded_units (Av.demux (container st))
  | Finished => []
  end.

Definition next_index (st : gen_state) : Z :=
  match pc st with
  | Created => 0
  | AtYield _ _ => index st + 1
  | Finished => index st
  end.

(** The images among decoded units, in order. *)
Definition video_of (us : list decoded_unit) : list Av.ndarray :=
  flat_map (fun u => match u with VideoUnit img => [img] | AudioUnit _ => [] end)
           us.

(** The errors a container holds: an error of [demux], or an error of
    [decode] on a packet that carries a decode timestamp. *)
Definition raises (items : list Av.demux_item) (e : exn) : Prop :=
  In (Av.DemuxRaises e) items \/
  exists p t, In (Av.Packet p) items /\ Av.dts p = Some t /\
              Av.decode p = Av.DecodeRaises e.

(** A frame that a packet with a decode timestamp of the given stream type
    decodes to. *)
Definition decoded_from (items : list Av.demux_item) (packet_type : string)
    (f : Av.frame) : Prop :=
  exists p t frames,
    In (Av.Packet p) items /\ Av.dts p = Some t /\
    Av.stream_type p = packet_type /\
    Av.decode p = Av.Decoded frames /\ In f frames.

(** The numbers behave as Python's do. *)
Example tenth_as_float :
  to_double (1 # 10) = Some (3602879701896397 # 36028797018963968)%Q.
Proof. vm_compute. reflexivity. Qed.

Example round_2_675_as_float :
  option_map round_float2 (to_double (107 # 40))
  = Some (1503076375634903 # 562949953421312)%Q.   (* 2.67 *)
Proof. vm_compute. reflexivity. Qed.

Example round_2_675_as_fraction : round_fraction2 (107 # 40) = (67 # 25)%Q.
Proof. vm_compute. reflexivity. Qed.

Example ntsc_rate :
  resolve_fps (Sample.rates (Some (30000 # 1001)) None None None None)
  = inr (PyFraction (2997 # 100)).
Proof. vm_compute. reflexivity. Qed.

Example truediv_overflows : int_truediv (2 ^ 1024) 1 = None.
Proof. vm_compute. reflexivity. Qed.

Example int_truncates : int_of_float (-3 # 2) = -1 /\ floor (-3 # 2) = -2.
Proof. split; reflexivity. Qed.

(** A run over [Sample.interleaved]: two elements; the packet without a
    decode timestamp leaves no trace, and the audio frame 4 that follows the
    last video frame stays in the accumulator. *)
Example interleaved_run :
  map (fun y => (yield_index y, yield_audio y))
      (emitted 9 Sample.unlimited
         (iterator (Sample.opened Sample.interleaved)))
  = [(0, [1%nat; 2%nat]); (1, [3%nat])] /\
  ending 9 Sample.unlimited (iterator (Sample.opened Sample.interleaved))
  = Some StopIteration /\
  audio_arr (left_behind 9 Sample.unlimited
               (iterator (Sample.opened Sample.interleaved)))
  = [4%nat].
Proof. vm_compute. repeat split. Qed.

Example interleaved_run_limited :
  map yield_index
      (emitted 9 (Sample.limited 1)
         (iterator (Sample.opened Sample.interleaved)))
  = [0].
Proof. vm_compute. reflexivity. Qed.

Example set_up_of_clip :
  fst (load_video_node Sample.clip_path (Sample.clip Sample.interleaved)
         true 7)
  = inr (Sample.loaded true 7 7 Sample.interleaved).
Proof. vm_compute. reflexivity. Qed.

Example corrupt_file_is_not_opened :
  load_video_node Sample.clip_path (Av.Corrupt (AVError "Invalid data"))
    false 10
  = (inl (AVError "Invalid data"), None).
Proof. reflexivity. Qed.

Example demux_error_ends_the_run :
  pull 9 Sample.unlimited
    (iterator (Sample.opened [Sample.video_packet 0 [10%nat];
                              Av.DemuxRaises (AVError "End of file")]))
  = ([{| in_frame := Av.Bgr24 10%nat; yield_index := 0; yield_audio := [];
         yield_codec := "aac" |}],
     Some (Raised (AVError "End of file")),
     {| pc := Finished; index := 1; audio_arr := [];
        container := Sample.opened [] |}).
Proof. vm_compute. reflexivity. Qed.

Lemma units_of_video ty fs :
  (ty =? "video")%string = true ->
  units_of_packet ty fs = map (fun f => VideoUnit (Av.to_ndarray f)) fs.
Proof. intros E. unfold units_of_packet. now rewrite E. Qed.

Lemma units_of_audio ty fs :
  (ty =? "video")%string = false -> (ty =? "audio")%string = true ->
  units_of_packet ty fs = map AudioUnit fs.
Proof. intros E1 E2. unfold units_of_packet. now rewrite E1, E2. Qed.

Lemma units_of_other ty fs :
  (ty =? "video")%string = false -> (ty =? "audio")%string = false ->
  units_of_packet ty fs = [].
Proof. intros E1 E2. unfold units_of_packet. now rewrite E1, E2. Qed.

Lemma units_of_nil ty : units_of_packet ty [] = [].
Proof.
  unfold units_of_packet.
  now destruct (ty =? "video")%string, (ty =? "audio")%string.
Qed.

Section Steps.

Variable env : closure.

(** The inner loop suspends on the first frame of a video packet, and
    nowhere else. *)
Lemma for_frame_suspend ty fs i a y todo i' a' :
  for_frame env ty fs i a = Suspend y todo i' a' ->
  (ty =? "video")%string = true /\ i' = i /\ a' = a /\
  exists f, fs = f :: todo /\
    y = {| in_frame := Av.to_ndarray f; yield_index := i;
           yield_audio := a;
           yield_codec := Av.codec_name (in_stream_a env) |}.
Proof.
  revert a. induction fs as [|f fs IH]; intros a; simpl.
  - discriminate.
  - destruct (ty =? "video")%string eqn:Ev.
    + intros H. inversion H; subst. repeat split; eauto.
    + destruct (ty =? "audio")%string; intros H; apply IH in H;
        destruct H as [H _]; discriminate.
Qed.

(** When it runs to its end, the index is the one it started with and the
    accumulator has grown by the audio frames of the packet. *)
Lemma for_frame_exhausted ty fs i a i' a' :
  for_frame env ty fs i a = Exhausted i' a' ->
  i' = i /\
  map AudioUnit a ++ units_of_packet ty fs = map AudioUnit a'.
Proof.
  revert a. induction fs as [|f fs IH]; intros a; simpl.
  - intros H. inversion H; subst. now rewrite units_of_nil, app_nil_r.
  - destruct (ty =? "video")%string eqn:Ev; [discriminate|].
    destruct (ty =? "audio")%string eqn:Ea; intros H; apply IH in H;
      destruct H as [-> H]; split; trivial; rewrite <- H.
    + rewrite !units_of_audio by assumption.
      rewrite map_app. simpl. now rewrite <- app_assoc.
    + now rewrite !units_of_other by assumption.
Qed.

Lemma packet_body_continue p i a i' a' todo :
  packet_body env p i a = Continue i' a' ->
  i' = i /\
  map AudioUnit a ++ decoded_units (Av.Packet p :: todo)
  = map AudioUnit a' ++ decoded_units todo.
Proof.
  unfold packet_body. simpl.
  destruct (Av.dts p) as [t|].
  - destruct (use_limit env && (limit env <=? i)); [discriminate|].
    destruct (Av.decode p) as [fs|e]; [|discriminate].
    destruct (for_frame env (Av.stream_type p) fs i a) as [|j b] eqn:E;
      [discriminate|].
    intros H. inversion H; subst.
    apply for_frame_exhausted in E. destruct E as [-> E].
    split; trivial. now rewrite app_assoc, E.
  - intros H. inversion H; subst. now split.
Qed.

Lemma packet_body_suspend p i a y rest i' a' todo :
  packet_body env p i a = BodySuspend y rest i' a' ->
  yield_index y = i /\ i' = i /\
  map AudioUnit a ++ decoded_units (Av.Packet p :: todo)
  = lay_out y ++ units_of_packet (Av.stream_type p) rest
      ++ decoded_units todo.
Proof.
  unfold packet_body. simpl.
  destruct (Av.dts p) as [t|]; [|discriminate].
  destruct (use_limit env && (limit env <=? i)); [discriminate|].
  destruct (Av.decode p) as [fs|e]; [|discriminate].
  destruct (for_frame env (Av.stream_type p) fs i a) as [z r j b|] eqn:E;
    [|discriminate].
  intros H. inversion H; subst.
  apply for_frame_suspend in E.
  destruct E as (Ev & -> & -> & f & -> & ->).
  repeat split. unfold lay_out. simpl.
  rewrite !units_of_video by assumption. simpl.
  now rewrite <- !app_assoc.
Qed.

(** The outer loop up to a [yield]. *)
Lemma for_packet_yield c items i a y st' :
  for_packet env c items i a = (Yield y, st') ->
  yield_index y = i /\ next_index st' = i + 1 /\
  map AudioUnit a ++ decoded_units items = lay_out y ++ pending st'.
Proof.
  revert i a. induction items as [|[p|e] todo IH]; intros i a; simpl.
  - discriminate.
  - destruct (packet_body env p i a) as [j b| |e|z r j b] eqn:E;
      try discriminate.
    + apply (packet_body_continue _ _ _ _ _ todo) in E.
      destruct E as [-> E]. intros H. apply IH in H.
      destruct H as (H1 & H2 & H3). repeat split; trivial.
      simpl in E. now rewrite E.
    + apply (packet_body_suspend _ _ _ _ _ _ _ todo) in E.
      destruct E as (E1 & -> & E). intros H. inversion H; subst.
      repeat split; trivial.
  - discriminate.
Qed.

(** No step of the generator calls [close] on the container. *)
Lemma for_packet_closed c items i a r st' :
  for_packet env c items i a = (r, st') ->
  Av.closed (container st') = Av.closed c.
Proof.
  revert i a. induction items as [|[p|e] todo IH]; intros i a; simpl.
  - intros H. now inversion H.
  - destruct (packet_body env p i a) as [j b| |e|z rest j b].
    + apply IH.
    + intros H. now inversion H.
    + intros H. now inversion H.
    + intros H. now inversion H.
  - intros H. now inversion H.
Qed.

Lemma gen_next_yield st y st' :
  gen_next env st = (Yield y, st') ->
  yield_index y = next_index st /\
  next_index st' = yield_index y + 1 /\
  pending st = lay_out y ++ pending st'.
Proof.
  unfold gen_next, next_index at 1, pending at 1.
  destruct (pc st) as [|ty fs|].
  - intros H. apply for_packet_yield in H.
    destruct H as (H1 & H2 & H3). rewrite H1. now repeat split.
  - destruct (for_frame env ty fs (index st + 1) []) as [z r j b|j b] eqn:E.
    + apply for_frame_suspend in E.
      destruct E as (Ev & -> & -> & f & -> & ->).
      intros H. inversion H; subst. repeat split.
      unfold pending, lay_out. simpl.
      now rewrite !units_of_video by assumption.
    + apply for_frame_exhausted in E. destruct E as [-> E].
      intros H. apply for_packet_yield in H.
      destruct H as (H1 & H2 & H3). rewrite H1. repeat split; trivial.
      simpl in E. now rewrite E.
  - discriminate.
Qed.

Lemma gen_next_closed st r st' :
  gen_next env st = (r, st') ->
  Av.closed (container st') = Av.closed (container st).
Proof.
  unfold gen_next. destruct (pc st) as [|ty fs|].
  - apply for_packet_closed.
  - destruct (for_frame env ty fs (index st + 1) []) as [z rest j b|j b].
    + intros H. now inversion H.
    + apply for_packet_closed.
  - intros H. now inversion H.
Qed.

(** The consumer, one request at a time. *)
Lemma pull_yield n st y st' :
  gen_next env st = (Yield y, st') ->
  pull (S n) env st
  = (y :: fst (fst (pull n env st')), snd (fst (pull n env st')),
     snd (pull n env st')).
Proof.
  intros H. simpl. rewrite H. now destruct (pull n env st') as [[ys l] s].
Qed.

Lemma pull_over n st r st' :
  gen_next env st = (r, st') -> (forall y, r <> Yield y) ->
  pull (S n) env st = ([], Some r, st').
Proof.
  intros H N. simpl. rewrite H. destruct r; trivial. now destruct (N y).
Qed.

End Steps.

(* ================================================================== *)
(** ** 8. Runs of the generator *)

Section Runs.

Variable env : closure.

Lemma for_packet_index c items i a r st' :
  for_packet env c items i a = (r, st') ->
  next_index st' = match r with Yield _ => i + 1 | _ => i end.
Proof.
  revert i a. induction items as [|[p|e] todo IH]; intros i a; simpl.
  - intros H. now inversion H.
  - destruct (packet_body env p i a) as [j b| |e|z rest j b] eqn:E.
    + apply (packet_body_continue _ _ _ _ _ _ todo) in E.
      destruct E as [-> _]. apply IH.
    + intros H. now inversion H.
    + intros H. now inversion H.
    + apply (packet_body_suspend _ _ _ _ _ _ _ _ todo) in E.
      destruct E as (_ & -> & _). intros H. now inversion H.
  - intros H. now inversion H.
Qed.

(** The index counter moves at a [yield] and nowhere else. *)
Lemma gen_next_index st r st' :
  gen_next env st = (r, st') ->
  next_index st'
  = match r with Yield _ => next_index st + 1 | _ => next_index st end.
Proof.
  unfold gen_next. destruct (pc st) as [|ty fs|] eqn:P.
  - replace (next_index st) with 0 by (unfold next_index; now rewrite P).
    apply for_packet_index.
  - replace (next_index st) with (index st + 1)
      by (unfold next_index; now rewrite P).
    destruct (for_frame env ty fs (index st + 1) []) as [z rest j b|j b] eqn:E.
    + apply for_frame_suspend in E.
      destruct E as (_ & -> & _). intros H. now inversion H.
    + apply for_frame_exhausted in E. destruct E as [-> _].
      apply for_packet_index.
  - intros H. now inversion H; subst.
Qed.

(** An unlimited loop that stops without an error has gone through all the
    units; what it leaves in the accumulator is attached to nothing. *)
Lemma for_packet_exhausted c items i a st' :
  use_limit env = false ->
  for_packet env c items i a = (StopIteration, st') ->
  map AudioUnit a ++ decoded_units items = map AudioUnit (audio_arr st').
Proof.
  intros U. revert i a.
  induction items as [|[p|e] todo IH]; intros i a; simpl.
  - intros H. inversion H; subst. simpl. now rewrite app_nil_r.
  - destruct (packet_body env p i a) as [j b| |e|z rest j b] eqn:E.
    + apply (packet_body_continue _ _ _ _ _ _ todo) in E.
      destruct E as [-> E]. intros H. apply IH in H.
      simpl in E. now rewrite E.
    + unfold packet_body in E. rewrite U in E. simpl in E.
      destruct (Av.dts p); [|discriminate].
      destruct (Av.decode p) as [fs|]; [|discriminate].
      now destruct (for_frame env (Av.stream_type p) fs i a).
    + discriminate.
    + discriminate.
  - discriminate.
Qed.

Lemma gen_next_exhausted st st' :
  use_limit env = false -> pc st <> Finished ->
  gen_next env st = (StopIteration, st') ->
  pending st = map AudioUnit (audio_arr st').
Proof.
  intros U N. unfold gen_next, pending.
  destruct (pc st) as [|ty fs|].
  - intros H. now apply for_packet_exhausted in H.
  - destruct (for_frame env ty fs (index st + 1) []) as [z rest j b|j b] eqn:E;
      [discriminate|].
    apply for_frame_exhausted in E. destruct E as [_ E].
    intros H. apply for_packet_exhausted in H; trivial.
    simpl in E. now rewrite E.
  - now destruct N.
Qed.

Lemma for_packet_suspended c items i a y st' :
  for_packet env c items i a = (Yield y, st') -> pc st' <> Finished.
Proof.
  revert i a. induction items as [|[p|e] todo IH]; intros i a; simpl;
    try discriminate.
  destruct (packet_body env p i a) as [j b| |e|z rest j b];
    try discriminate.
  - apply IH.
  - intros H. inversion H; subst. discriminate.
Qed.

Lemma gen_next_suspended st y st' :
  gen_next env st = (Yield y, st') -> pc st' <> Finished.
Proof.
  unfold gen_next. destruct (pc st) as [|ty fs|].
  - apply for_packet_suspended.
  - destruct (for_frame env ty fs (index st + 1) []) as [z rest j b|j b].
    + intros H. inversion H; subst. discriminate.
    + apply for_packet_suspended.
  - discriminate.
Qed.

End Runs.

Section Consumer.

Variable env : closure.

Lemma emitted_S n st :
  emitted (S n) env st
  = match gen_next env st with
    | (Yield y, st') => y :: emitted n env st'
    | _ => []
    end.
Proof.
  unfold emitted. simpl.
  destruct (gen_next env st) as [[y| |e] st']; trivial.
  now destruct (pull n env st') as [[ys l] s].
Qed.

Lemma left_behind_S n st :
  left_behind (S n) env st
  = match gen_next env st with
    | (Yield y, st') => left_behind n env st'
    | (_, st') => st'
    end.
Proof.
  unfold left_behind. simpl.
  destruct (gen_next env st) as [[y| |e] st']; trivial.
  now destruct (pull n env st') as [[ys l] s].
Qed.

Lemma ending_S n st :
  ending (S n) env st
  = match gen_next env st with
    | (Yield y, st') => ending n env st'
    | (r, _) => Some r
    end.
Proof.
  unfold ending. simpl.
  destruct (gen_next env st) as [[y| |e] st']; trivial.
  now destruct (pull n env st') as [[ys l] s].
Qed.

(** The elements received, each laid out as its audio followed by its video
    frame, retrace what the generator had to go through. *)
Lemma run_units n : forall st,
  exists rest,
    pending st = flat_map lay_out (emitted n env st) ++ rest /\
    (use_limit env = false -> pc st <> Finished ->
     ending n env st = Some StopIteration ->
     rest = map AudioUnit (audio_arr (left_behind n env st))).
Proof.
  induction n as [|n IH]; intros st.
  - exists (pending st). split; trivial. intros _ _ H. discriminate H.
  - rewrite emitted_S, left_behind_S, ending_S.
    destruct (gen_next env st) as [[y| |e] st'] eqn:G.
    + destruct (IH st') as (rest & R1 & R2). exists rest.
      pose proof (gen_next_suspended _ _ _ _ G) as S.
      apply gen_next_yield in G as (_ & _ & P). split.
      * simpl. now rewrite P, R1, app_assoc.
      * intros U _. now apply R2.
    + exists (pending st). split; trivial.
      intros U N _. now apply (gen_next_exhausted env).
    + exists (pending st). split; trivial. intros _ _ H. discriminate H.
Qed.

Lemma run_indices n : forall st,
  map yield_index (emitted n env st)
  = map (fun k => next_index st + Z.of_nat k)
        (seq 0 (List.length (emitted n env st))) /\
  next_index (left_behind n env st)
  = next_index st + Z.of_nat (List.length (emitted n env st)).
Proof.
  induction n as [|n IH]; intros st.
  - unfold emitted, left_behind. simpl. split; trivial. lia.
  - rewrite emitted_S, left_behind_S.
    destruct (gen_next env st) as [[y| |e] st'] eqn:G.
    + destruct (IH st') as [I1 I2].
      apply gen_next_index in G as N. apply gen_next_yield in G as (Y & _).
      cbn [List.length seq map]. rewrite <- seq_shift, map_map, I1, I2, N, Y.
      split.
      * f_equal; [lia|]. apply map_ext. intros k. lia.
      * lia.
    + apply gen_next_index in G. simpl. split; trivial. lia.
    + apply gen_next_index in G. simpl. split; trivial. lia.
Qed.

Lemma run_closed n : forall st,
  Av.closed (container (left_behind n env st)) = Av.closed (container st).
Proof.
  induction n as [|n IH]; intros st; trivial.
  rewrite left_behind_S.
  destruct (gen_next env st) as [[y| |e] st'] eqn:G;
    apply gen_next_closed in G; now rewrite ?IH.
Qed.

Lemma nth_emitted_index n : forall st k y,
  nth_error (emitted n env st) k = Some y ->
  yield_index y = next_index st + Z.of_nat k.
Proof.
  intros st k y H.
  destruct (run_indices n st) as [I _].
  apply (map_nth_error yield_index) in H. rewrite I in H.
  apply nth_error_In in H as J. apply in_map_iff in J.
  destruct J as (j & _ & J). apply in_seq in J.
  rewrite nth_error_map in H.
  rewrite nth_error_seq in H.
  destruct (Nat.ltb_spec k (List.length (emitted n env st))) as [L|L];
    simpl in H; [now inversion H | discriminate].
Qed.

(** Asking for more elements does not change the ones already received. *)
Lemma nth_emitted_mono n m : (n <= m)%nat -> forall st k y,
  nth_error (emitted n env st) k = Some y ->
  nth_error (emitted m env st) k = Some y.
Proof.
  revert m. induction n as [|n IH]; intros m L st k y.
  - now destruct k.
  - destruct m as [|m]; [lia|]. rewrite !emitted_S.
    destruct (gen_next env st) as [[z| |e] st'].
    + destruct k as [|k]; trivial. simpl. apply IH. lia.
    + trivial.
    + trivial.
Qed.

End Consumer.

Lemma audio_of_app us vs : audio_of (us ++ vs) = audio_of us ++ audio_of vs.
Proof. apply flat_map_app. Qed.

Lemma audio_of_audio a : audio_of (map AudioUnit a) = a.
Proof. induction a as [|f a IH]; simpl; congruence. Qed.

Lemma audio_of_lay_out y : audio_of (lay_out y) = yield_audio y.
Proof.
  unfold lay_out. rewrite audio_of_app, audio_of_audio. simpl.
  apply app_nil_r.
Qed.

Lemma audio_of_emitted ys :
  audio_of (flat_map lay_out ys) = attached_audio ys.
Proof.
  induction ys as [|y ys IH]; simpl; trivial.
  now rewrite audio_of_app, audio_of_lay_out, IH.
Qed.

(* ================================================================== *)
(** ** 9. Audio attachment, indices, skipped packets *)

(** C1, as worded, fails: in the run to exhaustion of a container that
    holds a video packet followed by an audio packet, the audio decoded
    after the last video frame is attached to no element. *)
Lemma trailing_audio_is_dropped :
  ~ audio_attachment_invariant Sample.unlimited
      (Sample.opened [Sample.video_packet 0 [10%nat];
                      Sample.audio_packet 0 [1%nat]]).
Proof.
  intros H. specialize (H 5%nat eq_refl). vm_compute in H. discriminate H.
Qed.

(** C1, amended.  For every run, limited or not, run to its end or left
    early: the elements received, each laid out as its attached audio
    followed by its video frame, are an initial part of the decoded units of
    the container in arrival order.  So no audio frame is attached twice or
    out of order, each element carries exactly the audio decoded after the
    previous video frame and before its own, and the attached lists add up
    to the decoded audio up to the last element received.  What is decoded
    after it is attached to nothing: when an unlimited run ends without an
    error, that rest is the content of the accumulator. *)
Theorem attached_audio_retraces_container (env : closure) (c : Av.container)
    (n : nat) :
  exists rest,
    decoded_units (Av.demux c)
    = flat_map lay_out (emitted n env (iterator c)) ++ rest /\
    decoded_audio (Av.demux c)
    = attached_audio (emitted n env (iterator c)) ++ audio_of rest /\
    (use_limit env = false ->
     ending n env (iterator c) = Some StopIteration ->
     rest = map AudioUnit (audio_arr (left_behind n env (iterator c)))).
Proof.
  destruct (run_units env n (iterator c)) as (rest & R1 & R2).
  exists rest. change (pending (iterator c)) with (decoded_units (Av.demux c)) in R1.
  repeat split.
  - exact R1.
  - unfold decoded_audio. now rewrite R1, audio_of_app, audio_of_emitted.
  - intros U E. apply R2; trivial. discriminate.
Qed.

Lemma attached_audio_retraces_container_witness :
  exists rest,
    decoded_units Sample.interleaved
    = flat_map lay_out
        (emitted 5 Sample.unlimited
           (iterator (Sample.opened Sample.interleaved))) ++ rest /\
    rest = map AudioUnit
             (audio_arr (left_behind 5 Sample.unlimited
                           (iterator (Sample.opened Sample.interleaved)))).
Proof.
  destruct (attached_audio_retraces_container Sample.unlimited
              (Sample.opened Sample.interleaved) 5) as (rest & R1 & _ & R3).
  exists rest. split; [exact R1|].
  apply R3; vm_compute; reflexivity.
Defined.

(** C8.  In every run the indices of the elements received are 0, 1, 2, ...
    in emission order, and the counter the generator is left with is the
    number of elements it has yielded: it moved by one at each [yield] and
    nowhere else. *)
Theorem indices_count_from_zero (env : closure) (c : Av.container) (n : nat) :
  map yield_index (emitted n env (iterator c))
  = map Z.of_nat (seq 0 (List.length (emitted n env (iterator c)))) /\
  next_index (left_behind n env (iterator c))
  = Z.of_nat (List.length (emitted n env (iterator c))).
Proof.
  destruct (run_indices env n (iterator c)) as [I1 I2].
  split.
  - rewrite I1. now apply map_ext.
  - now rewrite I2.
Qed.

(** C9.  A packet without a decode timestamp is passed over: the body of
    the loop leaves by [continue] with the index and the accumulator it was
    entered with, and the loop goes on as if the packet had not been
    there, so no element is yielded for it. *)
Theorem packet_without_dts_is_skipped (env : closure) (p : Av.packet)
    (c : Av.container) (todo : list Av.demux_item)
    (i : Z) (a : list Av.frame) :
  Av.dts p = None ->
  packet_body env p i a = Continue i a /\
  for_packet env c (Av.Packet p :: todo) i a = for_packet env c todo i a.
Proof.
  intros D.
  assert (B : packet_body env p i a = Continue i a)
    by (unfold packet_body; now rewrite D).
  split; trivial. simpl. now rewrite B.
Qed.

Lemma packet_without_dts_is_skipped_witness :
  Av.dts Sample.flush = None /\
  packet_body (Sample.limited 1) Sample.flush 1 [3%nat]
  = Continue 1 [3%nat].
Proof.
  split; [reflexivity|].
  exact (proj1 (packet_without_dts_is_skipped (Sample.limited 1) Sample.flush
                  (Sample.opened []) [] 1 [3%nat] eq_refl)).
Defined.

(* ================================================================== *)
(** ** 10. Set-up, taken apart *)

Lemma set_up_inr path c ul l out :
  set_up path c ul l = inr out ->
  exists v vs a others fps n,
    Av.streams_video c = v :: vs /\
    Av.streams_audio c = a :: others /\
    resolve_fps v = inr fps /\
    count_frames c (Av.video_codec_context v) fps = inr n /\
    out = {| out_iterator :=
               {| iter_env := {| use_limit := ul; limit := l;
                                 in_stream_a := a |};
                  iter_supplier := iterator c;
                  expected_length := if ul then Z.min n l else n |};
             video_dir := path_dir path;
             video_name := path_name path;
             out_fps := fps |}.
Proof.
  unfold set_up. simpl.
  destruct (Av.streams_video c) as [|v vs]; [discriminate|]. simpl.
  destruct (resolve_fps v) as [e|fps] eqn:R; [discriminate|]. simpl.
  destruct (count_frames c (Av.video_codec_context v) fps) as [e|n] eqn:N;
    [discriminate|]. simpl.
  destruct (Av.streams_audio c) as [|a others]; [discriminate|]. simpl.
  intros H. inversion H; subst.
  exists v, vs, a, others, fps, n. now repeat split.
Qed.

Lemma load_video_node_opened path file ul l r c :
  load_video_node path file ul l = (r, Some c) ->
  Av.open file = inr c /\ r = set_up path c ul l /\ Av.closed c = 0%nat.
Proof.
  unfold load_video_node.
  destruct file as [e|v a d ps]; simpl; [discriminate|].
  intros H. inversion H; subst. now repeat split.
Qed.

(* ================================================================== *)
(** ** 11. The container handle *)

(** C2, as worded, fails: after a run to exhaustion the container that
    set-up opened has not been closed once. *)
Lemma container_left_open_after_exhaustion :
  match load_video_node Sample.clip_path (Sample.clip Sample.interleaved)
          false 10 with
  | (inr out, Some _) =>
      let it := out_iterator out in
      ending 10 (iter_env it) (iter_supplier it) = Some StopIteration /\
      ~ closed_exactly_once
          (container (left_behind 10 (iter_env it) (iter_supplier it)))
  | _ => False
  end.
Proof. vm_compute. split; [reflexivity | discriminate]. Qed.

(** C2, amended.  On no exit path does the code close the container: the
    handle that [av.open] returned has been closed zero times when set-up
    raises after the opening, and zero times in the generator that any
    consumer leaves behind, be it exhausted, abandoned after [n] elements,
    or ended by an error of [demux] or [decode]. *)
Theorem container_is_never_closed (path : Path) (file : Av.media_file)
    (ul : bool) (l : Z) (r : result node_output) (c : Av.container) :
  load_video_node path file ul l = (r, Some c) ->
  Av.closed c = 0%nat /\
  forall out n, r = inr out ->
    Av.closed (container (left_behind n (iter_env (out_iterator out))
                            (iter_supplier (out_iterator out)))) = 0%nat.
Proof.
  intros H. apply load_video_node_opened in H as (_ & -> & C).
  split; trivial. intros out n S.
  apply set_up_inr in S as (v & vs & a & others & fps & k & _ & _ & _ & _ & ->).
  simpl. now rewrite run_closed.
Qed.

Lemma container_is_never_closed_witness :
  Av.closed (Sample.opened Sample.interleaved) = 0%nat /\
  Av.closed (container (left_behind 10 (Sample.limited 1)
                          (iterator (Sample.opened Sample.interleaved))))
  = 0%nat.
Proof.
  assert (L : load_video_node Sample.clip_path
                (Sample.clip Sample.interleaved) true 1
              = (set_up Sample.clip_path (Sample.opened Sample.interleaved)
                   true 1,
                 Some (Sample.opened Sample.interleaved)))
    by reflexivity.
  assert (S : set_up Sample.clip_path (Sample.opened Sample.interleaved)
                true 1
              = inr (Sample.loaded true 1 1 Sample.interleaved))
    by (vm_compute; reflexivity).
  destruct (container_is_never_closed _ _ _ _ _ _ L) as [C R].
  split; [exact C|].
  exact (R _ 10%nat S).
Defined.

(* ================================================================== *)
(** ** 12. The limit *)

Section Limit.

(** Two generators that differ in the limit only; the second has none. *)
Variables e1 e2 : closure.
Hypothesis same_audio : in_stream_a e1 = in_stream_a e2.
Hypothesis no_limit : use_limit e2 = false.

Lemma for_frame_same ty fs : forall i a,
  for_frame e1 ty fs i a = for_frame e2 ty fs i a.
Proof.
  induction fs as [|f fs IH]; intros i a; simpl; trivial.
  rewrite same_audio, !IH. reflexivity.
Qed.

Lemma packet_body_same p i a :
  packet_body e1 p i a <> Break ->
  packet_body e2 p i a = packet_body e1 p i a.
Proof.
  unfold packet_body. rewrite no_limit. simpl.
  destruct (Av.dts p); trivial.
  destruct (use_limit e1 && (limit e1 <=? i)); [now intros []|].
  intros _. destruct (Av.decode p); trivial.
  now rewrite for_frame_same.
Qed.

Lemma for_packet_same c items : forall i a y st',
  for_packet e1 c items i a = (Yield y, st') ->
  for_packet e2 c items i a = (Yield y, st').
Proof.
  induction items as [|[p|e] todo IH]; intros i a y st'; simpl; trivial.
  destruct (packet_body e1 p i a) as [j b| |e|z rest j b] eqn:E;
    try discriminate;
    (rewrite packet_body_same by (rewrite E; discriminate));
    rewrite E; auto.
Qed.

Lemma gen_next_same st y st' :
  gen_next e1 st = (Yield y, st') -> gen_next e2 st = (Yield y, st').
Proof.
  unfold gen_next. destruct (pc st) as [|ty fs|].
  - apply for_packet_same.
  - rewrite for_frame_same.
    destruct (for_frame e2 ty fs (index st + 1) []); trivial.
    apply for_packet_same.
  - trivial.
Qed.

(** What the first generator yields, the second yields at the same place. *)
Lemma nth_emitted_same n : forall st k y,
  nth_error (emitted n e1 st) k = Some y ->
  nth_error (emitted n e2 st) k = Some y.
Proof.
  induction n as [|n IH]; intros st k y; trivial.
  rewrite !emitted_S.
  destruct (gen_next e1 st) as [[z| |e] st'] eqn:G;
    try (now destruct k).
  rewrite (gen_next_same _ _ _ G).
  destruct k as [|k]; trivial. simpl. apply IH.
Qed.

End Limit.

(** C7.  The element that a limited run and an unlimited run over the same
    container emit under the same frame index carries the same attached
    audio: the limit stops the run and changes nothing in what the frames
    before it carry. *)
Theorem audio_is_attached_under_a_limit (l l' : Z) (a : Av.audio_stream)
    (c : Av.container) (n m : nat) (y1 y2 : yielded) :
  In y1 (emitted n {| use_limit := true; limit := l; in_stream_a := a |}
           (iterator c)) ->
  In y2 (emitted m {| use_limit := false; limit := l'; in_stream_a := a |}
           (iterator c)) ->
  yield_index y1 = yield_index y2 ->
  yield_audio y1 = yield_audio y2.
Proof.
  set (lim := {| use_limit := true; limit := l; in_stream_a := a |}).
  set (unl := {| use_limit := false; limit := l'; in_stream_a := a |}).
  intros H1 H2 E.
  apply In_nth_error in H1 as [k1 H1]. apply In_nth_error in H2 as [k2 H2].
  apply (nth_emitted_same lim unl eq_refl eq_refl) in H1.
  pose proof (nth_emitted_index _ _ _ _ _ H1) as I1.
  pose proof (nth_emitted_index _ _ _ _ _ H2) as I2.
  assert (k1 = k2) by lia. subst k2.
  apply (nth_emitted_mono unl n (Nat.max n m)) in H1; [|lia].
  apply (nth_emitted_mono unl m (Nat.max n m)) in H2; [|lia].
  congruence.
Qed.

Lemma audio_is_attached_under_a_limit_witness :
  let y := {| in_frame := Av.Bgr24 10%nat; yield_index := 0;
              yield_audio := [1%nat; 2%nat]; yield_codec := "aac" |} in
  In y (emitted 3 (Sample.limited 1)
          (iterator (Sample.opened Sample.interleaved))) /\
  In y (emitted 5 Sample.unlimited
          (iterator (Sample.opened Sample.interleaved))) /\
  yield_audio y = yield_audio y.
Proof.
  intros y.
  assert (H1 : In y (emitted 3 (Sample.limited 1)
                       (iterator (Sample.opened Sample.interleaved))))
    by (vm_compute; left; reflexivity).
  assert (H2 : In y (emitted 5 Sample.unlimited
                       (iterator (Sample.opened Sample.interleaved))))
    by (vm_compute; left; reflexivity).
  split; [exact H1|]. split; [exact H2|].
  exact (audio_is_attached_under_a_limit 1 10 Sample.aac
           (Sample.opened Sample.interleaved) 3 5 y y H1 H2 eq_refl).
Defined.

Section SingleFrame.

(** The limit is tested once per packet.  It holds the run back as long as
    no video packet decodes to more than one frame. *)
Variable env : closure.
Hypothesis limited : use_limit env = true.

Lemma for_packet_within_limit c items :
  Forall single_frame items ->
  forall i a y st',
    for_packet env c items i a = (Yield y, st') ->
    i < limit env /\
    (forall ty todo, pc st' = AtYield ty todo -> todo = []) /\
    Forall single_frame (Av.demux (container st')).
Proof.
  induction 1 as [|item todo S F IH]; intros i a y st'; simpl.
  - discriminate.
  - destruct item as [p|e]; [|discriminate].
    destruct (packet_body env p i a) as [j b| |e|z rest j b] eqn:E;
      try discriminate.
    + apply (packet_body_continue _ _ _ _ _ _ todo) in E.
      destruct E as [-> _]. apply IH.
    + intros H. inversion H; subst; clear H. simpl.
      unfold packet_body in E. rewrite limited in E. simpl in E, S.
      destruct (Av.dts p); [|discriminate].
      destruct (limit env <=? i) eqn:L; [discriminate|].
      apply Z.leb_gt in L.
      destruct (Av.decode p) as [fs|]; [|discriminate].
      destruct (for_frame env (Av.stream_type p) fs i a)
        as [z' r' j' b'|] eqn:G; [|discriminate].
      inversion E; subst; clear E.
      apply for_frame_suspend in G.
      destruct G as (V & _ & _ & f & -> & _).
      repeat split; trivial.
      intros ty t P. inversion P; subst.
      destruct t; trivial. congruence.
Qed.

Lemma gen_next_within_limit st y st' :
  Forall single_frame (Av.demux (container st)) ->
  (forall ty todo, pc st = AtYield ty todo -> todo = []) ->
  gen_next env st = (Yield y, st') ->
  yield_index y < limit env /\
  Forall single_frame (Av.demux (container st')) /\
  (forall ty todo, pc st' = AtYield ty todo -> todo = []).
Proof.
  intros F T G. pose proof (gen_next_yield _ _ _ _ G) as (Y & _).
  revert Y G. unfold gen_next, next_index.
  destruct (pc st) as [|ty fs|].
  - intros Y G. apply for_packet_within_limit in G; trivial.
    destruct G as (L & A & B). rewrite Y. auto.
  - rewrite (T ty fs eq_refl). simpl.
    intros Y G. apply for_packet_within_limit in G; trivial.
    destruct G as (L & A & B). rewrite Y. auto.
  - discriminate.
Qed.

Lemma emitted_within_limit n : forall st,
  Forall single_frame (Av.demux (container st)) ->
  (forall ty todo, pc st = AtYield ty todo -> todo = []) ->
  Forall (fun y => yield_index y < limit env) (emitted n env st).
Proof.
  induction n as [|n IH]; intros st F T.
  - constructor.
  - rewrite emitted_S.
    destruct (gen_next env st) as [[y| |e] st'] eqn:G; try constructor.
    + now apply gen_next_within_limit in G.
    + apply gen_next_within_limit in G as (_ & A & B); trivial.
      now apply IH.
Qed.

End SingleFrame.

(** X13.  Where every video packet decodes to one frame at most, a limit of
    [l >= 0] is kept: at most [l] elements, each of an index below [l]. *)
Lemma limit_kept_on_single_frames (l : Z) (a : Av.audio_stream)
    (c : Av.container) (n : nat) :
  0 <= l -> Forall single_frame (Av.demux c) ->
  limit_respected l
    (emitted n {| use_limit := true; limit := l; in_stream_a := a |}
       (iterator c)).
Proof.
  intros L F.
  set (env := {| use_limit := true; limit := l; in_stream_a := a |}).
  assert (W : Forall (fun y => yield_index y < l) (emitted n env (iterator c))).
  { apply (emitted_within_limit env eq_refl); trivial. discriminate. }
  split; trivial.
  destruct (List.length (emitted n env (iterator c))) as [|k] eqn:E;
    [simpl; lia|].
  destruct (nth_error (emitted n env (iterator c)) k) as [y|] eqn:N.
  - pose proof (nth_emitted_index _ _ _ _ _ N) as I.
    apply nth_error_In in N. rewrite Forall_forall in W. apply W in N.
    change (next_index (iterator c)) with 0 in I. lia.
  - apply nth_error_None in N. lia.
Qed.

(** C3 at the input on which it fails: a limit of 1 and a container whose
    one video packet decodes to two frames.  The advertised length is
    [min 240 1 = 1], yet the run yields two elements, the second of index
    1. *)
Theorem limit_overrun_on_two_frame_packet :
  match load_video_node Sample.clip_path
          (Sample.clip [Sample.video_packet 0 [1%nat; 2%nat]]) true 1 with
  | (inr out, _) =>
      let it := out_iterator out in
      expected_length it = Z.min 240 1 /\
      map yield_index (emitted 5 (iter_env it) (iter_supplier it)) = [0; 1] /\
      ~ limit_respected 1 (emitted 5 (iter_env it) (iter_supplier it))
  | _ => False
  end.
Proof.
  vm_compute. repeat split; try reflexivity.
  intros [H _]. now apply H.
Qed.

(* ================================================================== *)
(** ** 13. The audio stream and the frame count *)

(** C10.  A container with a video stream and no audio stream never gets
    through set-up: [load_video_node] raises, so no iterator is handed out
    and no element produced; and whenever the same file with an audio stream
    would load, what it raises is the IndexError of
    [container.streams.audio[0]]. *)
Theorem audio_stream_is_required (path : Path) (v : Av.video_stream)
    (vs : list Av.video_stream) (d : option Z) (ps : list Av.demux_item)
    (ul : bool) (l : Z) :
  (exists e, fst (load_video_node path (Av.Media (v :: vs) [] d ps) ul l)
             = inl e) /\
  (forall a others out,
     fst (load_video_node path (Av.Media (v :: vs) (a :: others) d ps) ul l)
     = inr out ->
     fst (load_video_node path (Av.Media (v :: vs) [] d ps) ul l)
     = inl IndexError).
Proof.
  unfold load_video_node, set_up, count_frames. simpl.
  destruct (resolve_fps v) as [e|fps]; simpl.
  - split; [now exists e | discriminate].
  - match goal with
    | |- context [bind ?c _] => destruct c as [e|n]; simpl
    end.
    + split; [now exists e | discriminate].
    + split; [now exists IndexError | trivial].
Qed.

Lemma audio_stream_is_required_witness :
  fst (load_video_node Sample.clip_path
         (Av.Media [Sample.stream24] [] (Some 10000000) Sample.interleaved)
         false 10)
  = inl IndexError.
Proof.
  refine (proj2 (audio_stream_is_required Sample.clip_path Sample.stream24 []
                   (Some 10000000) Sample.interleaved false 10)
            Sample.aac [] (Sample.loaded false 10 240 Sample.interleaved) _).
  vm_compute. reflexivity.
Defined.

Lemma int_of_float_floor (x : Q) : (0 <= x)%Q -> int_of_float x = floor x.
Proof.
  unfold Qle, int_of_float, floor. simpl. intros H.
  apply Z.quot_div_nonneg; lia.
Qed.

(** C6, as worded, fails twice.  A container that reports no duration makes
    set-up raise even though the encoded-frame count is there; and where the
    product of duration and rate is negative the count is that product with
    its fraction cut off, one more than its floor. *)
Lemma frame_count_not_as_worded :
  fst (load_video_node Sample.clip_path
         (Av.Media [Sample.counted Sample.stream24 (Some 100)] [Sample.aac]
                   None [])
         false 10)
  = inl TypeError /\
  match fst (load_video_node Sample.clip_path
               (Av.Media [Sample.rates None None (Some (1 # 1)) None None]
                         [Sample.aac] (Some (-1500000)) [])
               false 10) with
  | inr out =>
      out_fps out = PyFloat (1 # 1) /\
      float_mul (-15 # 10) (1 # 1) = Some (-3 # 2)%Q /\
      floor (-3 # 2) = -2 /\
      expected_length (out_iterator out) = -1
  | inl _ => False
  end.
Proof. vm_compute. repeat split. Qed.

(** C6, amended.  When set-up succeeds without a limit, the advertised
    length is the encoded-frame count of the video stream if that is present
    and not zero; otherwise the container reports a duration and the length
    is [int(duration / 1000000 * fps)], the float product with its fraction
    cut off, which is its floor when the product is not negative.  With a
    duration of 10 seconds, a rate of 24.0 and no encoded-frame count, it is
    240. *)
Theorem frame_count_from_metadata_or_duration :
  (forall path v vs a d ps l out,
     fst (load_video_node path (Av.Media (v :: vs) a d ps) false l) = inr out ->
     let n := expected_length (out_iterator out) in
     let encoded := Av.encoded_frame_count (Av.video_codec_context v) in
     (forall k, encoded = Some k -> k <> 0 -> n = k) /\
     (encoded = None \/ encoded = Some 0 ->
      exists us seconds f product,
        d = Some us /\
        int_truediv us 1000000 = Some seconds /\
        py_float (out_fps out) = inr f /\
        float_mul seconds f = Some product /\
        n = int_of_float product /\
        ((0 <= product)%Q -> n = floor product))) /\
  count_frames (Sample.opened []) (Av.video_codec_context Sample.stream24)
    (PyFloat (24 # 1)) = inr 240.
Proof.
  split; [|vm_compute; reflexivity].
  intros path v vs a d ps l out H. unfold load_video_node in H. simpl in H.
  apply set_up_inr in H.
  destruct H as (v' & vs' & a' & others & fps & n & V & _ & _ & N & ->).
  simpl in V. inversion V; subst v' vs'; clear V. simpl.
  unfold count_frames in N. simpl in N.
  destruct d as [us|]; [|discriminate]. simpl in N.
  destruct (int_truediv us 1000000) as [seconds|] eqn:S; [|discriminate].
  simpl in N.
  assert (E : forall m,
            bind (py_float fps)
                 (fun f => match float_mul seconds f with
                           | Some x => ret (int_of_float x)
                           | None => raise OverflowError
                           end) = inr m ->
            exists f product,
              py_float fps = inr f /\ float_mul seconds f = Some product /\
              m = int_of_float product).
  { intros m. destruct (py_float fps) as [e|f]; [discriminate|]. simpl.
    destruct (float_mul seconds f) as [product|] eqn:M; [|discriminate].
    intros I. inversion I. now exists f, product. }
  split.
  - intros k K Z. rewrite K in N.
    destruct (k =? 0) eqn:T; [apply Z.eqb_eq in T; contradiction|].
    now inversion N.
  - intros K.
    assert (N' : bind (py_float fps)
                   (fun f => match float_mul seconds f with
                             | Some x => ret (int_of_float x)
                             | None => raise OverflowError
                             end) = inr n)
      by (destruct K as [K|K]; now rewrite K in N).
    apply E in N' as (f & product & F & M & ->).
    exists us, seconds, f, product. repeat split; trivial.
    apply int_of_float_floor.
Qed.

Lemma frame_count_from_metadata_or_duration_witness :
  expected_length
    (out_iterator (Sample.loaded false 10 240 Sample.interleaved))
  = int_of_float (240 # 1).
Proof.
  assert (L : fst (load_video_node Sample.clip_path
                     (Av.Media [Sample.stream24] [Sample.aac] (Some 10000000)
                               Sample.interleaved) false 10)
              = inr (Sample.loaded false 10 240 Sample.interleaved))
    by (vm_compute; reflexivity).
  destruct (proj1 frame_count_from_metadata_or_duration _ _ _ _ _ _ _ _ L)
    as [_ H].
  destruct (H (or_introl eq_refl))
    as (us & seconds & f & product & U & S & F & M & N & _).
  rewrite N. f_equal.
  inversion U; subst us. vm_compute in S. inversion S; subst seconds.
  vm_compute in F. inversion F; subst f.
  vm_compute in M. now inversion M.
Defined.

(* ================================================================== *)
(** ** 14. The frame rate *)

Lemma inject_Z_nonneg z : 0 <= z -> (0 <= inject_Z z)%Q.
Proof. unfold Qle. simpl. lia. Qed.

Lemma Qmake_nonneg n d : 0 <= n -> (0 <= n # d)%Q.
Proof. unfold Qle. simpl. lia. Qed.

Lemma round_half_even_nonneg q : (0 <= q)%Q -> 0 <= round_half_even q.
Proof.
  unfold Qle. simpl. intros H. unfold round_half_even. cbv zeta.
  assert (F : 0 <= Qnum q / Z.pos (Qden q)) by (apply Z.div_pos; lia).
  revert F. generalize (Qnum q / Z.pos (Qden q)). intros fl F.
  destruct (_ ?= _); [destruct (Z.even fl)| |]; lia.
Qed.

Lemma round_fraction2_nonneg q : (0 <= q)%Q -> (0 <= round_fraction2 q)%Q.
Proof.
  intros H. unfold round_fraction2. rewrite Qred_correct.
  apply Qmake_nonneg, round_half_even_nonneg.
  apply Qmult_le_0_compat; trivial. now apply inject_Z_nonneg.
Qed.

Lemma nearest_pos_nonneg q v :
  (0 <= q)%Q -> nearest_pos q = Some v -> (0 <= v)%Q.
Proof.
  intros H. unfold nearest_pos.
  match goal with |- context [Z.max ?a ?b] => generalize (Z.max a b) end.
  intros e.
  assert (P : (0 <= inject_Z 2 ^ e)%Q)
    by (apply Qpower_0_le; now apply inject_Z_nonneg).
  destruct (Qle_bool _ _); [discriminate|].
  match goal with |- Some ?t = _ -> _ => remember t as w eqn:W end.
  intros [= <-]. rewrite W, Qred_correct.
  apply Qmult_le_0_compat; trivial.
  apply inject_Z_nonneg, round_half_even_nonneg.
  apply Qmult_le_0_compat; trivial. now apply Qinv_le_0_compat.
Qed.

Lemma to_double_nonneg q v :
  (0 <= q)%Q -> to_double q = Some v -> (0 <= v)%Q.
Proof.
  intros H. unfold to_double.
  destruct (Qnum q) eqn:N.
  - intros E. inversion E. apply Qle_refl.
  - now apply nearest_pos_nonneg.
  - unfold Qle in H. simpl in H. lia.
Qed.

Lemma round_float2_nonneg x : (0 <= x)%Q -> (0 <= round_float2 x)%Q.
Proof.
  intros H. unfold round_float2.
  destruct (to_double _) as [y|] eqn:E; trivial.
  apply to_double_nonneg in E; trivial.
  apply Qmake_nonneg, round_half_even_nonneg.
  apply Qmult_le_0_compat; trivial. now apply inject_Z_nonneg.
Qed.

Lemma divided_and_rounded_nonneg q fps :
  (0 <= q)%Q -> divided_and_rounded q = inr fps -> (0 <= value fps)%Q.
Proof.
  intros H. unfold divided_and_rounded, as_integer_ratio, int_truediv.
  assert (R : (0 <= Qred q)%Q) by now rewrite Qred_correct.
  destruct (Qred q) as [n d]. simpl.
  destruct (to_double (n # d)) as [x|] eqn:E; [|discriminate].
  intros F. inversion F. simpl.
  apply round_float2_nonneg. now apply to_double_nonneg in E.
Qed.

(** The [or]-chains and the test of lines 76-87, read as one decision. *)
Lemma resolve_fps_cases v :
  let codec_context := Av.video_codec_context v in
  let fps := py_or (Av.framerate codec_context) (Av.rate codec_context) in
  let rate :=
    py_or (py_or (Av.average_rate v) (Av.guessed_rate v)) (Av.base_rate v) in
  resolve_fps v
  = if truthy fps then
      match fps with
      | Some q => inr (PyFraction (round_fraction2 q))
      | None => inl AttributeError
      end
    else
      match rate, fps with
      | Some r, _ => divided_and_rounded r
      | None, None => inl (RuntimeError "Failed to get video fps")
      | None, Some _ => inl AttributeError
      end.
Proof.
  intros cc fps rate. unfold resolve_fps. fold cc. fold fps. fold rate.
  destruct fps as [q|], rate as [r|]; simpl;
    try destruct (negb (Qnum q =? 0)); trivial;
    unfold divided_and_rounded, as_integer_ratio;
    destruct (int_truediv _ _); trivial.
Qed.

Lemma truthy_some c : truthy c = true -> exists q, c = Some q.
Proof. destruct c as [q|]; [now exists q | discriminate]. Qed.

Lemma py_or_some a b q : py_or a b = Some q -> a = Some q \/ b = Some q.
Proof. unfold py_or. destruct (truthy a); auto. Qed.

Lemma first_usable_pair a b :
  first_usable [a; b] = if truthy (py_or a b) then py_or a b else None.
Proof.
  simpl. unfold py_or. destruct (truthy a) eqn:A; [now rewrite A|].
  now destruct (truthy b).
Qed.

Lemma first_usable_triple a b c q :
  first_usable [a; b; c] = Some q -> py_or (py_or a b) c = Some q.
Proof.
  simpl. unfold py_or.
  destruct (truthy a) eqn:A; rewrite ?A; trivial.
  destruct (truthy b) eqn:B; rewrite ?B; trivial.
  destruct (truthy c); trivial; discriminate.
Qed.

(** C4, as worded, fails twice.  A codec-context frame rate of 107/40 stays
    a fraction and is rounded as one, to 67/25 (2.68), where the division
    to a float followed by the rounding gives 2.67; and a codec-context
    frame rate of zero is not null, yet the average rate wins over it. *)
Lemma rate_resolver_not_as_worded :
  match resolve_fps (Sample.rates (Some (107 # 40)) None None None None),
        rate_resolver (Sample.rates (Some (107 # 40)) None None None None)
  with
  | inr a, inr b => a = PyFraction (67 # 25) /\ ~ (value a == value b)%Q
  | _, _ => False
  end /\
  match resolve_fps (Sample.rates (Some (0 # 1)) None (Some (24 # 1)) None None),
        rate_resolver (Sample.rates (Some (0 # 1)) None (Some (24 # 1)) None None)
  with
  | inr a, inr b => a = PyFloat (24 # 1) /\ b = PyFloat (0 # 1)
  | _, _ => False
  end.
Proof.
  vm_compute. repeat split. intros H. discriminate H.
Qed.

Lemma divided_and_rounded_inl q e :
  divided_and_rounded q = inl e -> e = OverflowError.
Proof.
  unfold divided_and_rounded, as_integer_ratio.
  destruct (int_truediv _ _); [discriminate|]. now intros [= <-].
Qed.

Lemma py_or_none a b : py_or a b = None <-> truthy a = false /\ b = None.
Proof.
  unfold py_or. destruct (truthy a) eqn:A.
  - apply truthy_some in A as [q ->]. split; [discriminate | now intros []].
  - tauto.
Qed.

Lemma py_or_falsy a b :
  truthy (py_or a b) = false <-> truthy a = false /\ truthy b = false.
Proof.
  unfold py_or. destruct (truthy a) eqn:A.
  - rewrite A. split; [discriminate | now intros []].
  - tauto.
Qed.

(** C4, amended.  The candidates are tried in the order codec-context frame
    rate, codec-context rate, average rate, guessed rate, base rate, and the
    first that is neither null nor zero wins.  A usable codec-context
    candidate decides the result alone, whatever the stream holds after it;
    otherwise the first usable stream candidate is converted by true
    division of numerator by denominator and the float is rounded to two
    decimals.  In particular a base rate alone resolves to the base rate
    divided out and rounded, and an average rate that is not zero wins over
    the base rate. *)
Theorem rate_candidates_in_priority_order (v : Av.video_stream) :
  let codec_context := Av.video_codec_context v in
  (forall q,
     first_usable [Av.framerate codec_context; Av.rate codec_context]
     = Some q ->
     first_usable (candidates v) = Some q /\
     resolve_fps v = resolve_fps (Sample.rates (Some q) None None None None)) /\
  (forall q,
     first_usable [Av.framerate codec_context; Av.rate codec_context]
     = None ->
     first_usable [Av.average_rate v; Av.guessed_rate v; Av.base_rate v]
     = Some q ->
     first_usable (candidates v) = Some q /\
     resolve_fps v = divided_and_rounded q) /\
  (forall b,
     candidates v = [None; None; None; None; Some b] ->
     resolve_fps v = divided_and_rounded b) /\
  (forall a g b,
     candidates v = [None; None; Some a; g; Some b] ->
     truthy (Some a) = true ->
     resolve_fps v = divided_and_rounded a).
Proof.
  intros cc.
  assert (S : forall cs ds,
            first_usable (cs ++ ds)
            = match first_usable cs with
              | Some q => Some q
              | None => first_usable ds
              end).
  { induction cs as [|c cs IH]; intros ds; simpl; trivial.
    destruct (truthy c) eqn:T; [|apply IH].
    now apply truthy_some in T as [q ->]. }
  assert (C : candidates v
              = [Av.framerate cc; Av.rate cc]
                  ++ [Av.average_rate v; Av.guessed_rate v; Av.base_rate v])
    by reflexivity.
  split; [|split; [|split]].
  - intros q H. split; [now rewrite C, S, H|].
    rewrite !resolve_fps_cases. fold cc.
    rewrite first_usable_pair in H.
    destruct (truthy (py_or (Av.framerate cc) (Av.rate cc))) eqn:T;
      [|discriminate].
    rewrite H in T |- *. simpl. unfold py_or. rewrite T. simpl.
    simpl in T. now rewrite T.
  - intros q H U. split; [now rewrite C, S, H|].
    rewrite resolve_fps_cases. fold cc.
    rewrite first_usable_pair in H.
    destruct (truthy (py_or (Av.framerate cc) (Av.rate cc))) eqn:T.
    + apply truthy_some in T as [r T]. rewrite T in H. discriminate H.
    + apply first_usable_triple in U. now rewrite U.
  - intros b H. rewrite resolve_fps_cases. fold cc.
    revert H. unfold candidates. fold cc.
    intros [= -> -> -> -> ->]. reflexivity.
  - intros a g b H T. rewrite resolve_fps_cases. fold cc.
    revert H. unfold candidates. fold cc.
    intros [= -> -> -> -> ->].
    unfold py_or. simpl in T |- *. rewrite !T. simpl. now rewrite T.
Qed.

(** A zero frame rate and a null rate in the codec context, three rates in
    the stream: the average rate wins and is divided out; and a usable
    codec-context rate behind a zero frame rate wins over all three. *)
Lemma rate_candidates_in_priority_order_witness :
  (first_usable (candidates (Sample.rates (Some (0 # 1)) None
                               (Some (30000 # 1001)) (Some (30 # 1))
                               (Some (25 # 1))))
   = Some (30000 # 1001)%Q /\
   resolve_fps (Sample.rates (Some (0 # 1)) None (Some (30000 # 1001))
                  (Some (30 # 1)) (Some (25 # 1)))
   = divided_and_rounded (30000 # 1001)) /\
  (first_usable (candidates (Sample.rates (Some (0 # 1)) (Some (50 # 1))
                               (Some (24 # 1)) None (Some (25 # 1))))
   = Some (50 # 1)%Q /\
   resolve_fps (Sample.rates (Some (0 # 1)) (Some (50 # 1)) (Some (24 # 1))
                  None (Some (25 # 1)))
   = resolve_fps (Sample.rates (Some (50 # 1)) None None None None)).
Proof.
  split.
  - exact (proj1 (proj2 (rate_candidates_in_priority_order
                           (Sample.rates (Some (0 # 1)) None
                              (Some (30000 # 1001)) (Some (30 # 1))
                              (Some (25 # 1)))))
             (30000 # 1001) eq_refl eq_refl).
  - exact (proj1 (rate_candidates_in_priority_order
                    (Sample.rates (Some (0 # 1)) (Some (50 # 1))
                       (Some (24 # 1)) None (Some (25 # 1))))
             (50 # 1) eq_refl).
Defined.

(** C5, as worded, fails: an average rate of 1/1000 resolves to 0.0. *)
Lemma small_rate_resolves_to_zero :
  match resolve_fps (Sample.rates None None (Some (1 # 1000)) None None) with
  | inr fps => fps = PyFloat (0 # 1) /\ ~ positive_rate fps
  | inl _ => False
  end.
Proof. vm_compute. split; [reflexivity | discriminate]. Qed.

(** C5, amended.  The rate resolution fails with the explicit error, the
    RuntimeError "Failed to get video fps", exactly when no candidate is
    usable at any step: the codec-context frame rate is null or zero, the
    codec-context rate is null, the average and the guessed rate are null or
    zero and the base rate is null; so it does whenever every candidate is
    null.  The error is raised in set-up: [load_video_node] raises it and
    hands out no iterator.  When a rate is returned and no candidate is
    negative, the rate is not negative; it can be zero, even when every
    candidate is positive. *)
Theorem rate_is_resolved_or_refused (v : Av.video_stream) :
  let codec_context := Av.video_codec_context v in
  (resolve_fps v = inl (RuntimeError "Failed to get video fps") <->
   truthy (Av.framerate codec_context) = false /\
   Av.rate codec_context = None /\
   truthy (Av.average_rate v) = false /\
   truthy (Av.guessed_rate v) = false /\
   Av.base_rate v = None) /\
  (Forall (fun c => c = None) (candidates v) ->
   resolve_fps v = inl (RuntimeError "Failed to get video fps")) /\
  (resolve_fps v = inl (RuntimeError "Failed to get video fps") ->
   forall path vs a d ps ul l,
     load_video_node path (Av.Media (v :: vs) a d ps) ul l
     = (inl (RuntimeError "Failed to get video fps"),
        Some {| Av.streams_video := v :: vs; Av.streams_audio := a;
                Av.duration := d; Av.demux := ps; Av.closed := 0%nat |})) /\
  (forall fps,
     resolve_fps v = inr fps ->
     Forall (fun c => forall q, c = Some q -> (0 <= q)%Q) (candidates v) ->
     (0 <= value fps)%Q) /\
  (exists w,
     Forall (fun c => forall q, c = Some q -> (0 < q)%Q) (candidates w) /\
     resolve_fps w = inr (PyFloat (0 # 1))).
Proof.
  intros cc.
  assert (X : resolve_fps v = inl (RuntimeError "Failed to get video fps") <->
              truthy (Av.framerate cc) = false /\ Av.rate cc = None /\
              truthy (Av.average_rate v) = false /\
              truthy (Av.guessed_rate v) = false /\ Av.base_rate v = None).
  { assert (E : truthy (Av.framerate cc) = false /\ Av.rate cc = None /\
                truthy (Av.average_rate v) = false /\
                truthy (Av.guessed_rate v) = false /\ Av.base_rate v = None
                <-> py_or (Av.framerate cc) (Av.rate cc) = None /\
                    py_or (py_or (Av.average_rate v) (Av.guessed_rate v))
                          (Av.base_rate v) = None)
      by (rewrite !py_or_none, py_or_falsy; tauto).
    rewrite E, resolve_fps_cases. fold cc.
    destruct (py_or (Av.framerate cc) (Av.rate cc)) as [q|];
      destruct (py_or (py_or _ _) (Av.base_rate v)) as [r|]; simpl.
    - split; [|now intros []].
      destruct (negb (Qnum q =? 0)); [discriminate|].
      intros H. now apply divided_and_rounded_inl in H.
    - split; [|now intros []]. now destruct (negb (Qnum q =? 0)).
    - split; [|now intros []].
      intros H. now apply divided_and_rounded_inl in H.
    - tauto. }
  split; [exact X|]. split; [|split; [|split]].
  - unfold candidates. fold cc. intros F.
    repeat match goal with
           | H : Forall _ (_ :: _) |- _ => inversion H; subst; clear H
           end.
    apply X.
    repeat match goal with H : _ = None |- _ => rewrite H; clear H end.
    now repeat split.
  - intros R path vs a d ps ul l.
    unfold load_video_node, set_up. simpl. now rewrite R.
  - intros fps R F. rewrite resolve_fps_cases in R. unfold candidates in F.
    repeat match goal with
           | H : Forall _ (_ :: _) |- _ => inversion H; subst; clear H
           end.
    destruct (truthy (py_or _ _)) eqn:T.
    + apply truthy_some in T as [q T]. rewrite T in R.
      injection R as <-. simpl. apply round_fraction2_nonneg.
      apply py_or_some in T as [T|T]; eauto.
    + destruct (py_or (py_or _ _) _) as [r|] eqn:P.
      * apply divided_and_rounded_nonneg in R; trivial.
        apply py_or_some in P as [P|P]; eauto.
        apply py_or_some in P as [P|P]; eauto.
      * now destruct (py_or _ _).
  - exists (Sample.rates None None (Some (1 # 1000)) None None). split.
    + repeat constructor; intros q E; try discriminate E.
      now injection E as <-.
    + vm_compute. reflexivity.
Qed.

(** A zero frame rate and a zero guessed rate, nothing else: the explicit
    error, raised by set-up; and a rate of 1/1000 resolves to a rate that is
    not negative. *)
Lemma rate_is_resolved_or_refused_witness :
  fst (load_video_node Sample.clip_path
         (Av.Media [Sample.rates (Some (0 # 3)) None None (Some (0 # 5)) None]
                   [Sample.aac] (Some 10000000) Sample.interleaved)
         true 3)
  = inl (RuntimeError "Failed to get video fps") /\
  (0 <= value (PyFloat (0 # 1)))%Q.
Proof.
  pose proof (rate_is_resolved_or_refused
                (Sample.rates (Some (0 # 3)) None None (Some (0 # 5)) None))
    as (X & _ & L & _ & _).
  pose proof (rate_is_resolved_or_refused
                (Sample.rates None None (Some (1 # 1000)) None None))
    as (_ & _ & _ & N & _).
  split.
  - rewrite (L (proj2 X (conj eq_refl (conj eq_refl (conj eq_refl
                  (conj eq_refl eq_refl)))))
               Sample.clip_path [] [Sample.aac] (Some 10000000)
               Sample.interleaved true 3).
    reflexivity.
  - apply (N (PyFloat (0 # 1))).
    + vm_compute. reflexivity.
    + repeat constructor; intros q [= <-]; discriminate.
Defined.

(* ================================================================== *)
(** ** 15. Further properties of the generator *)

Lemma video_of_app us vs : video_of (us ++ vs) = video_of us ++ video_of vs.
Proof. apply flat_map_app. Qed.

Lemma video_of_audio a : video_of (map AudioUnit a) = [].
Proof. induction a as [|f a IH]; simpl; trivial. Qed.

Lemma video_of_lay_out y : video_of (lay_out y) = [in_frame y].
Proof. unfold lay_out. now rewrite video_of_app, video_of_audio. Qed.

Lemma video_of_emitted ys : video_of (flat_map lay_out ys) = map in_frame ys.
Proof.
  induction ys as [|y ys IH]; simpl; trivial.
  now rewrite video_of_app, video_of_lay_out, IH.
Qed.

Section Forward.

Variable env : closure.

(** The generator reads the packets front to back: what [demux] has still
    to deliver after a step is a final part of what it had before. *)
Lemma for_packet_forward c items i a r st' :
  for_packet env c items i a = (r, st') ->
  exists pre, items = pre ++ Av.demux (container st').
Proof.
  revert i a. induction items as [|[p|e] todo IH]; intros i a; simpl.
  - intros [= <- <-]. now exists [].
  - destruct (packet_body env p i a) as [j b| |e|z rest j b].
    + intros H. apply IH in H as [pre ->]. now exists (Av.Packet p :: pre).
    + intros [= <- <-]. now exists [Av.Packet p].
    + intros [= <- <-]. now exists [Av.Packet p].
    + intros [= <- <-]. now exists [Av.Packet p].
  - intros [= <- <-]. now exists [Av.DemuxRaises e].
Qed.

Lemma gen_next_forward st r st' :
  gen_next env st = (r, st') ->
  exists pre, Av.demux (container st) = pre ++ Av.demux (container st').
Proof.
  unfold gen_next. destruct (pc st) as [|ty fs|].
  - apply for_packet_forward.
  - destruct (for_frame env ty fs (index st + 1) []) as [z rest j b|j b].
    + intros [= <- <-]. now exists [].
    + apply for_packet_forward.
  - intros [= <- <-]. now exists [].
Qed.

(** An error that ends a step is an error the container holds. *)
Lemma for_packet_raised c items i a e st' :
  for_packet env c items i a = (Raised e, st') -> raises items e.
Proof.
  revert i a. induction items as [|[p|e'] todo IH]; intros i a; simpl.
  - discriminate.
  - destruct (packet_body env p i a) as [j b| |e'|z rest j b] eqn:B;
      try discriminate.
    + intros H. apply IH in H as [H|(q & t & H & D & R)].
      * left. now right.
      * right. exists q, t. repeat split; trivial. now right.
    + intros [= -> <-]. right. unfold packet_body in B.
      destruct (Av.dts p) as [t|] eqn:D; [|discriminate].
      destruct (use_limit env && (limit env <=? i)); [discriminate|].
      destruct (Av.decode p) as [fs|e''] eqn:R.
      * now destruct (for_frame env (Av.stream_type p) fs i a).
      * injection B as ->. exists p, t. repeat split; trivial. now left.
  - intros [= -> <-]. left. now left.
Qed.

Lemma gen_next_raised st e st' :
  gen_next env st = (Raised e, st') -> raises (Av.demux (container st)) e.
Proof.
  unfold gen_next. destruct (pc st) as [|ty fs|].
  - apply for_packet_raised.
  - destruct (for_frame env ty fs (index st + 1) []) as [z rest j b|j b].
    + discriminate.
    + apply for_packet_raised.
  - discriminate.
Qed.

Lemma raises_later pre items e : raises items e -> raises (pre ++ items) e.
Proof.
  intros [H|(p & t & H & D & R)].
  - left. apply in_or_app. now right.
  - right. exists p, t. repeat split; trivial. apply in_or_app. now right.
Qed.

Lemma run_forward n : forall st,
  exists pre,
    Av.demux (container st)
    = pre ++ Av.demux (container (left_behind n env st)).
Proof.
  induction n as [|n IH]; intros st.
  - now exists [].
  - rewrite left_behind_S.
    destruct (gen_next env st) as [[y| |e] st'] eqn:G;
      apply gen_next_forward in G as [pre G].
    + destruct (IH st') as [pre' I]. exists (pre ++ pre').
      now rewrite G, I at 1; rewrite app_assoc.
    + now exists pre.
    + now exists pre.
Qed.

Lemma run_raised n : forall st e,
  ending n env st = Some (Raised e) -> raises (Av.demux (container st)) e.
Proof.
  induction n as [|n IH]; intros st e.
  - discriminate.
  - rewrite ending_S.
    destruct (gen_next env st) as [[y| |e'] st'] eqn:G.
    + intros H. apply IH in H.
      apply gen_next_forward in G as [pre ->]. now apply raises_later.
    + discriminate.
    + intros [= ->]. now apply gen_next_raised in G.
Qed.

(** A consumer whose requests were all answered has as many elements as it
    asked for. *)
Lemma run_unfinished n : forall st,
  ending n env st = None -> List.length (emitted n env st) = n.
Proof.
  induction n as [|n IH]; intros st; trivial.
  rewrite ending_S, emitted_S.
  destruct (gen_next env st) as [[y| |e] st']; try discriminate.
  intros H. simpl. now rewrite IH.
Qed.

End Forward.

Lemma units_of_packet_video ty fs img :
  In (VideoUnit img) (units_of_packet ty fs) ->
  ty = "video"%string /\ exists f, In f fs /\ img = Av.to_ndarray f.
Proof.
  unfold units_of_packet.
  destruct (ty =? "video")%string eqn:V.
  - intros H. apply in_map_iff in H as (f & [= <-] & H).
    apply String.eqb_eq in V. eauto.
  - destruct (ty =? "audio")%string; [|now intros []].
    intros H. apply in_map_iff in H as (f & E & _). discriminate E.
Qed.

Lemma units_of_packet_audio ty fs f :
  In (AudioUnit f) (units_of_packet ty fs) ->
  ty = "audio"%string /\ In f fs.
Proof.
  unfold units_of_packet.
  destruct (ty =? "video")%string eqn:V.
  - intros H. apply in_map_iff in H as (g & E & _). discriminate E.
  - destruct (ty =? "audio")%string eqn:A; [|now intros []].
    intros H. apply in_map_iff in H as (g & [= <-] & H).
    apply String.eqb_eq in A. auto.
Qed.

Lemma decoded_from_later item items ty f :
  decoded_from items ty f -> decoded_from (item :: items) ty f.
Proof.
  intros (p & t & fs & H & R). exists p, t, fs. split; [now right | exact R].
Qed.

Lemma decoded_units_video items img :
  In (VideoUnit img) (decoded_units items) ->
  exists f, img = Av.to_ndarray f /\ decoded_from items "video" f.
Proof.
  induction items as [|[p|e] todo IH]; simpl; try now intros [].
  destruct (Av.dts p) as [t|] eqn:D.
  - destruct (Av.decode p) as [fs|e] eqn:R; [|now intros []].
    intros H. apply in_app_or in H as [H|H].
    + apply units_of_packet_video in H as (T & f & F & ->).
      exists f. split; trivial. exists p, t, fs. repeat split; trivial.
      now left.
    + apply IH in H as (f & -> & H). exists f. split; trivial.
      now apply decoded_from_later.
  - intros H. apply IH in H as (f & -> & H). exists f. split; trivial.
    now apply decoded_from_later.
Qed.

Lemma decoded_units_audio items f :
  In (AudioUnit f) (decoded_units items) -> decoded_from items "audio" f.
Proof.
  induction items as [|[p|e] todo IH]; simpl; try now intros [].
  destruct (Av.dts p) as [t|] eqn:D.
  - destruct (Av.decode p) as [fs|e] eqn:R; [|now intros []].
    intros H. apply in_app_or in H as [H|H].
    + apply units_of_packet_audio in H as (T & F).
      exists p, t, fs. repeat split; trivial. now left.
    + now apply decoded_from_later, IH.
  - intros H. now apply decoded_from_later, IH.
Qed.

(** X1.  Every decoded video frame is emitted: in an unlimited run that
    ends with StopIteration, the images received are the video frames the
    container decodes to, all of them, once each and in arrival order. *)
Theorem every_video_frame_is_emitted (env : closure) (c : Av.container)
    (n : nat) :
  use_limit env = false ->
  ending n env (iterator c) = Some StopIteration ->
  map in_frame (emitted n env (iterator c))
  = video_of (decoded_units (Av.demux c)).
Proof.
  intros U E.
  destruct (run_units env n (iterator c)) as (rest & R1 & R2).
  change (pending (iterator c)) with (decoded_units (Av.demux c)) in R1.
  rewrite R1, video_of_app, video_of_emitted.
  rewrite (R2 U) by (trivial; discriminate).
  now rewrite video_of_audio, app_nil_r.
Qed.

Lemma every_video_frame_is_emitted_witness :
  map in_frame (emitted 9 Sample.unlimited
                  (iterator (Sample.opened Sample.interleaved)))
  = video_of (decoded_units Sample.interleaved).
Proof.
  apply (every_video_frame_is_emitted Sample.unlimited
           (Sample.opened Sample.interleaved) 9).
  - reflexivity.
  - vm_compute. reflexivity.
Defined.

(** X2.  Every run comes to an end.  No run emits more elements than the
    container decodes video frames, and a consumer that asks for more
    than that sees the generator finish, with StopIteration or an error. *)
Theorem run_comes_to_an_end (env : closure) (c : Av.container) (n : nat) :
  (List.length (emitted n env (iterator c))
   <= List.length (video_of (decoded_units (Av.demux c))))%nat /\
  ((List.length (video_of (decoded_units (Av.demux c))) < n)%nat ->
   ending n env (iterator c) <> None).
Proof.
  assert (B : (List.length (emitted n env (iterator c))
               <= List.length (video_of (decoded_units (Av.demux c))))%nat).
  { destruct (run_units env n (iterator c)) as (rest & R1 & _).
    change (pending (iterator c)) with (decoded_units (Av.demux c)) in R1.
    rewrite R1, video_of_app, video_of_emitted, length_app, length_map.
    lia. }
  split; trivial.
  intros L E. apply run_unfinished in E. lia.
Qed.

Lemma run_comes_to_an_end_witness :
  ending 3 (Sample.limited 5) (iterator (Sample.opened Sample.interleaved))
  <> None.
Proof.
  apply (proj2 (run_comes_to_an_end (Sample.limited 5)
                  (Sample.opened Sample.interleaved) 3)).
  vm_compute. lia.
Defined.

(** X3.  The generator raises nothing of its own: an error that ends a run
    is an error that [demux] raises, or that [decode] raises on a packet
    with a decode timestamp, in that container; a container that holds no
    such error never ends a run with one. *)
Theorem raised_errors_come_from_the_container (env : closure)
    (c : Av.container) (n : nat) (e : exn) :
  ending n env (iterator c) = Some (Raised e) -> raises (Av.demux c) e.
Proof. apply (run_raised env n (iterator c)). Qed.

Lemma raised_errors_come_from_the_container_witness :
  raises [Sample.video_packet 0 [10%nat];
          Av.DemuxRaises (AVError "End of file")]
         (AVError "End of file").
Proof.
  apply (raised_errors_come_from_the_container Sample.unlimited
           (Sample.opened [Sample.video_packet 0 [10%nat];
                           Av.DemuxRaises (AVError "End of file")]) 9).
  vm_compute. reflexivity.
Defined.

(** X5.  What an element carries was decoded from the container: its image
    is the conversion of a frame of a video packet with a decode timestamp,
    and each attached audio frame is a frame of an audio packet with a
    decode timestamp.  Nothing comes from a packet without a timestamp or
    from a stream of another type. *)
Theorem elements_come_from_packets (env : closure) (c : Av.container)
    (n : nat) (y : yielded) :
  In y (emitted n env (iterator c)) ->
  (exists f, in_frame y = Av.to_ndarray f /\
             decoded_from (Av.demux c) "video" f) /\
  (forall f, In f (yield_audio y) -> decoded_from (Av.demux c) "audio" f).
Proof.
  intros H.
  destruct (run_units env n (iterator c)) as (rest & R1 & _).
  change (pending (iterator c)) with (decoded_units (Av.demux c)) in R1.
  assert (S : forall u, In u (lay_out y) ->
                        In u (decoded_units (Av.demux c))).
  { intros u U. rewrite R1. apply in_or_app. left.
    apply in_flat_map. eauto. }
  split.
  - apply decoded_units_video, S. unfold lay_out.
    apply in_or_app. right. now left.
  - intros f F. apply decoded_units_audio, S. unfold lay_out.
    apply in_or_app. left. now apply in_map.
Qed.

Lemma elements_come_from_packets_witness :
  exists f, Av.Bgr24 11%nat = Av.to_ndarray f /\
            decoded_from Sample.interleaved "video" f.
Proof.
  refine (proj1 (elements_come_from_packets Sample.unlimited
                   (Sample.opened Sample.interleaved) 9
                   {| in_frame := Av.Bgr24 11%nat; yield_index := 1;
                      yield_audio := [3%nat]; yield_codec := "aac" |} _)).
  vm_compute. right. left. reflexivity.
Defined.

Section Below.

(** Two generators that differ in the limit only; the first has one. *)
Variables e1 e2 : closure.
Hypothesis same_audio : in_stream_a e1 = in_stream_a e2.
Hypothesis limit_on : use_limit e1 = true.
Hypothesis limit_off : use_limit e2 = false.

Lemma packet_body_below p i a :
  i < limit e1 -> packet_body e1 p i a = packet_body e2 p i a.
Proof.
  intros L. unfold packet_body. rewrite limit_on, limit_off. simpl.
  destruct (Av.dts p); trivial.
  apply Z.leb_gt in L. rewrite L.
  destruct (Av.decode p); trivial.
  now rewrite (for_frame_same e1 e2 same_audio).
Qed.

Lemma for_packet_below c items : forall i a,
  i < limit e1 -> for_packet e1 c items i a = for_packet e2 c items i a.
Proof.
  induction items as [|[p|e] todo IH]; intros i a L; simpl; trivial.
  rewrite (packet_body_below _ _ _ L).
  destruct (packet_body e2 p i a) as [j b| |e|z rest j b] eqn:B; trivial.
  apply (packet_body_continue _ _ _ _ _ _ todo) in B as [-> _].
  now apply IH.
Qed.

(** Below the limit the two generators take the same step. *)
Lemma gen_next_below st :
  next_index st < limit e1 -> gen_next e1 st = gen_next e2 st.
Proof.
  unfold next_index, gen_next. destruct (pc st) as [|ty fs|]; intros L.
  - now apply for_packet_below.
  - rewrite (for_frame_same e1 e2 same_audio).
    destruct (for_frame e2 ty fs (index st + 1) []) as [z rest j b|j b] eqn:F;
      trivial.
    apply for_frame_exhausted in F as [-> _]. now apply for_packet_below.
  - trivial.
Qed.

Lemma nth_emitted_below n : forall st k y,
  nth_error (emitted n e2 st) k = Some y ->
  next_index st + Z.of_nat k < limit e1 ->
  nth_error (emitted n e1 st) k = Some y.
Proof.
  induction n as [|n IH]; intros st k y; trivial.
  rewrite !emitted_S. intros H L.
  rewrite gen_next_below by lia.
  destruct (gen_next e2 st) as [[z| |e] st'] eqn:G; trivial.
  destruct k as [|k]; trivial. simpl in H |- *.
  apply IH; trivial.
  apply gen_next_index in G. lia.
Qed.

End Below.

(** X6.  The limit does not cut a run short: the element that an unlimited
    run emits at a position below the limit is emitted at that position by
    the limited run as well. *)
Theorem limit_does_not_cut_short (l l' : Z) (a : Av.audio_stream)
    (c : Av.container) (n k : nat) (y : yielded) :
  nth_error (emitted n {| use_limit := false; limit := l';
                          in_stream_a := a |} (iterator c)) k = Some y ->
  Z.of_nat k < l ->
  nth_error (emitted n {| use_limit := true; limit := l;
                          in_stream_a := a |} (iterator c)) k = Some y.
Proof.
  intros H L.
  apply (nth_emitted_below
           {| use_limit := true; limit := l; in_stream_a := a |}
           {| use_limit := false; limit := l'; in_stream_a := a |}
           eq_refl eq_refl eq_refl n (iterator c) k y H).
  exact L.
Qed.

Lemma limit_does_not_cut_short_witness :
  nth_error (emitted 9 (Sample.limited 2)
               (iterator (Sample.opened Sample.interleaved))) 1
  = Some {| in_frame := Av.Bgr24 11%nat; yield_index := 1;
            yield_audio := [3%nat]; yield_codec := "aac" |}.
Proof.
  apply (limit_does_not_cut_short 2 10 Sample.aac
           (Sample.opened Sample.interleaved) 9 1).
  - vm_compute. reflexivity.
  - lia.
Defined.

Lemma for_packet_at_limit env c items : forall i a r st',
  use_limit env = true -> limit env <= i ->
  for_packet env c items i a = (r, st') ->
  forall y, r <> Yield y.
Proof.
  induction items as [|[p|e] todo IH]; intros i a r st' U L; simpl.
  - intros [= <- <-]. discriminate.
  - unfold packet_body. rewrite U. simpl.
    destruct (Av.dts p).
    + apply Z.leb_le in L. rewrite L. intros [= <- <-]. discriminate.
    + now apply IH.
  - intros [= <- <-]. discriminate.
Qed.

(** X7.  With a limit of zero or less the generator emits nothing: its
    first call of [next] ends the run at the first packet that carries a
    decode timestamp, before anything is decoded. *)
Theorem nothing_under_a_limit_of_zero (l : Z) (a : Av.audio_stream)
    (c : Av.container) (n : nat) :
  l <= 0 ->
  emitted n {| use_limit := true; limit := l; in_stream_a := a |}
    (iterator c) = [].
Proof.
  intros L. destruct n as [|n]; trivial.
  rewrite emitted_S. unfold gen_next. simpl.
  destruct (for_packet _ c (Av.demux c) 0 []) as [[y| |e] st'] eqn:F; trivial.
  apply for_packet_at_limit with (y := y) in F; trivial.
  now destruct F.
Qed.

Lemma nothing_under_a_limit_of_zero_witness :
  emitted 9 (Sample.limited 0) (iterator (Sample.opened Sample.interleaved))
  = [].
Proof.
  apply (nothing_under_a_limit_of_zero 0 Sample.aac
           (Sample.opened Sample.interleaved) 9).
  lia.
Defined.

(* ================================================================== *)
(** ** 16. Further properties of set-up *)

(** X8.  The explicit failure "Failed to get video fps" is raised exactly
    when the codec-context frame rate is null or zero, the codec-context
    rate is null, the average and the guessed rate are null or zero, and
    the base rate is null. *)
Theorem explicit_failure_exactly_when (v : Av.video_stream) :
  let codec_context := Av.video_codec_context v in
  resolve_fps v = inl (RuntimeError "Failed to get video fps") <->
  truthy (Av.framerate codec_context) = false /\
  Av.rate codec_context = None /\
  truthy (Av.average_rate v) = false /\
  truthy (Av.guessed_rate v) = false /\
  Av.base_rate v = None.
Proof.
  intros cc.
  assert (E : truthy (Av.framerate cc) = false /\ Av.rate cc = None /\
              truthy (Av.average_rate v) = false /\
              truthy (Av.guessed_rate v) = false /\ Av.base_rate v = None
              <-> py_or (Av.framerate cc) (Av.rate cc) = None /\
                  py_or (py_or (Av.average_rate v) (Av.guessed_rate v))
                        (Av.base_rate v) = None)
    by (rewrite !py_or_none, py_or_falsy; tauto).
  rewrite E, resolve_fps_cases. fold cc.
  destruct (py_or (Av.framerate cc) (Av.rate cc)) as [q|];
    destruct (py_or (py_or _ _) (Av.base_rate v)) as [r|]; simpl.
  - split; [|now intros []].
    destruct (negb (Qnum q =? 0)); [discriminate|].
    intros H. now apply divided_and_rounded_inl in H.
  - split; [|now intros []]. now destruct (negb (Qnum q =? 0)).
  - split; [|now intros []].
    intros H. now apply divided_and_rounded_inl in H.
  - tauto.
Qed.

(** X9.  Set-up can also fail without the explicit error: the rate
    resolution ends with an AttributeError (on [None.as_integer_ratio])
    exactly when the codec-context frame rate is null or zero, the
    codec-context rate is zero, the average and the guessed rate are null or
    zero, and the base rate is null. *)
Theorem attribute_error_exactly_when (v : Av.video_stream) :
  let codec_context := Av.video_codec_context v in
  resolve_fps v = inl AttributeError <->
  truthy (Av.framerate codec_context) = false /\
  (exists z, Av.rate codec_context = Some z /\ Qnum z = 0) /\
  truthy (Av.average_rate v) = false /\
  truthy (Av.guessed_rate v) = false /\
  Av.base_rate v = None.
Proof.
  intros cc.
  assert (E : truthy (Av.framerate cc) = false /\
              (exists z, Av.rate cc = Some z /\ Qnum z = 0) /\
              truthy (Av.average_rate v) = false /\
              truthy (Av.guessed_rate v) = false /\ Av.base_rate v = None
              <-> (exists z, py_or (Av.framerate cc) (Av.rate cc) = Some z /\
                             Qnum z = 0) /\
                  py_or (py_or (Av.average_rate v) (Av.guessed_rate v))
                        (Av.base_rate v) = None).
  { rewrite !py_or_none, py_or_falsy. unfold py_or.
    destruct (truthy (Av.framerate cc)) eqn:F.
    - split; [now intros [? _]|].
      intros [(z & Z & N) _]. rewrite Z in F. simpl in F.
      rewrite N in F. discriminate F.
    - tauto. }
  rewrite E, resolve_fps_cases. fold cc.
  destruct (py_or (Av.framerate cc) (Av.rate cc)) as [q|];
    destruct (py_or (py_or _ _) (Av.base_rate v)) as [r|]; simpl.
  - split; [|now intros []].
    destruct (negb (Qnum q =? 0)); [discriminate|].
    intros H. now apply divided_and_rounded_inl in H.
  - destruct (Qnum q =? 0) eqn:Z; simpl.
    + apply Z.eqb_eq in Z. split; trivial. intros _. split; trivial.
      now exists q.
    + apply Z.eqb_neq in Z. split; [discriminate|].
      intros [(z & [= <-] & N) _]. contradiction.
  - split; [|now intros []].
    intros H. now apply divided_and_rounded_inl in H.
  - split; [discriminate|]. now intros [(z & Z & _) _].
Qed.

Lemma attribute_error_exactly_when_witness :
  resolve_fps (Sample.rates None (Some (0 # 1)) None (Some (0 # 5)) None)
  = inl AttributeError.
Proof.
  apply (proj2 (attribute_error_exactly_when
                  (Sample.rates None (Some (0 # 1)) None (Some (0 # 5)) None))).
  repeat split; trivial. now exists (0 # 1)%Q.
Defined.

Lemma explicit_failure_exactly_when_witness :
  resolve_fps (Sample.rates (Some (0 # 3)) None None (Some (0 # 5)) None)
  = inl (RuntimeError "Failed to get video fps").
Proof.
  apply (proj2 (explicit_failure_exactly_when
                  (Sample.rates (Some (0 # 3)) None None (Some (0 # 5)) None))).
  repeat split.
Defined.

Lemma resolve_fps_nonneg v fps :
  resolve_fps v = inr fps ->
  Forall (fun c => forall q, c = Some q -> (0 <= q)%Q) (candidates v) ->
  (0 <= value fps)%Q.
Proof.
  intros R F. rewrite resolve_fps_cases in R. unfold candidates in F.
  repeat match goal with
         | H : Forall _ (_ :: _) |- _ => inversion H; subst; clear H
         end.
  destruct (truthy (py_or _ _)) eqn:T.
  - apply truthy_some in T as [q T]. rewrite T in R.
    injection R as <-. simpl. apply round_fraction2_nonneg.
    apply py_or_some in T as [T|T]; eauto.
  - destruct (py_or (py_or _ _) _) as [r|] eqn:P.
    + apply divided_and_rounded_nonneg in R; trivial.
      apply py_or_some in P as [P|P]; eauto.
      apply py_or_some in P as [P|P]; eauto.
    + now destruct (py_or _ _).
Qed.

Lemma py_float_nonneg fps f :
  (0 <= value fps)%Q -> py_float fps = inr f -> (0 <= f)%Q.
Proof.
  destruct fps as [q|x]; simpl.
  - intros H. unfold as_integer_ratio, int_truediv.
    assert (R : (0 <= Qred q)%Q) by now rewrite Qred_correct.
    destruct (Qred q) as [n d]. simpl.
    destruct (to_double (n # d)) as [x|] eqn:E; [|discriminate].
    intros [= <-]. now apply to_double_nonneg in E.
  - now intros H [= <-].
Qed.

Lemma count_frames_nonneg c cc fps n us :
  count_frames c cc fps = inr n ->
  Av.duration c = Some us -> 0 <= us ->
  (0 <= value fps)%Q ->
  (forall k, Av.encoded_frame_count cc = Some k -> 0 <= k) ->
  0 <= n.
Proof.
  unfold count_frames. intros N D U F K. rewrite D in N. simpl in N.
  destruct (int_truediv us 1000000) as [s|] eqn:S; [|discriminate].
  apply to_double_nonneg in S; [|now apply Qmake_nonneg]. simpl in N.
  assert (E : bind (py_float fps)
                (fun f => match float_mul s f with
                          | Some x => ret (int_of_float x)
                          | None => raise OverflowError
                          end) = inr n -> 0 <= n).
  { destruct (py_float fps) as [e|f] eqn:P; [discriminate|]. simpl.
    apply py_float_nonneg in P; trivial.
    destruct (float_mul s f) as [x|] eqn:M; [|discriminate].
    apply to_double_nonneg in M; [|now apply Qmult_le_0_compat].
    intros [= <-]. unfold int_of_float. unfold Qle in M. simpl in M.
    apply Z.quot_pos; lia. }
  destruct (Av.encoded_frame_count cc) as [k|]; auto.
  destruct (k =? 0); auto. injection N as <-. auto.
Qed.

(** X10.  The advertised length is not negative when the metadata is not:
    with a duration of zero or more, no negative rate candidate, no negative
    encoded-frame count and, under a limit, a limit of zero or more, a
    set-up that succeeds advertises a length of zero or more. *)
Theorem advertised_length_is_not_negative (path : Path)
    (v : Av.video_stream) (vs : list Av.video_stream)
    (a : list Av.audio_stream) (us : Z) (ps : list Av.demux_item)
    (ul : bool) (l : Z) (out : node_output) :
  fst (load_video_node path (Av.Media (v :: vs) a (Some us) ps) ul l)
  = inr out ->
  0 <= us ->
  Forall (fun c => forall q, c = Some q -> (0 <= q)%Q) (candidates v) ->
  (forall k, Av.encoded_frame_count (Av.video_codec_context v) = Some k ->
             0 <= k) ->
  (ul = true -> 0 <= l) ->
  0 <= expected_length (out_iterator out).
Proof.
  intros H U F K L. unfold load_video_node in H. simpl in H.
  apply set_up_inr in H
    as (v' & vs' & a' & others & fps & n & [= <- <-] & _ & R & N & ->).
  simpl.
  assert (0 <= n).
  { apply (count_frames_nonneg _ _ _ _ us N); trivial.
    now apply (resolve_fps_nonneg v). }
  destruct ul; [|trivial]. specialize (L eq_refl). lia.
Qed.

Lemma advertised_length_is_not_negative_witness :
  0 <= expected_length
         (out_iterator (Sample.loaded true 7 7 Sample.interleaved)).
Proof.
  apply (advertised_length_is_not_negative Sample.clip_path Sample.stream24
           [] [Sample.aac] 10000000 Sample.interleaved true 7).
  - vm_compute. reflexivity.
  - lia.
  - repeat constructor; intros q [= <-]; discriminate.
  - intros k H. discriminate H.
  - intros _. lia.
Defined.

(** X11.  Set-up with a limit succeeds where set-up without one does and
    fails where it fails, with the same error.  What it returns is what the
    unlimited set-up returns but for two things: the closure of the
    generator holds [use_limit = True] and the limit, and the advertised
    length is the smaller of the unlimited length and the limit.  The frame
    rate, the directory, the name, the audio stream and the state the
    generator starts from are the same. *)
Theorem limit_changes_length_and_closure_only (path : Path)
    (file : Av.media_file) (l0 l : Z) :
  (forall out0,
     fst (load_video_node path file false l0) = inr out0 ->
     iter_env (out_iterator out0)
     = {| use_limit := false; limit := l0;
          in_stream_a := in_stream_a (iter_env (out_iterator out0)) |} /\
     fst (load_video_node path file true l)
     = inr {| out_iterator :=
                {| iter_env :=
                     {| use_limit := true; limit := l;
                        in_stream_a :=
                          in_stream_a (iter_env (out_iterator out0)) |};
                   iter_supplier := iter_supplier (out_iterator out0);
                   expected_length :=
                     Z.min (expected_length (out_iterator out0)) l |};
              video_dir := video_dir out0;
              video_name := video_name out0;
              out_fps := out_fps out0 |}) /\
  (forall e,
     fst (load_video_node path file false l0) = inl e ->
     fst (load_video_node path file true l) = inl e) /\
  snd (load_video_node path file true l)
  = snd (load_video_node path file false l0).
Proof.
  unfold load_video_node. destruct file as [e0|v a d ps]; simpl.
  - split; [discriminate | split; trivial].
  - unfold set_up. simpl.
    destruct v as [|v vs]; simpl; [split; [discriminate | split; trivial]|].
    destruct (resolve_fps v) as [e|fps]; simpl;
      [split; [discriminate | split; trivial]|].
    destruct (count_frames _ _ fps) as [e|n]; simpl;
      [split; [discriminate | split; trivial]|].
    destruct a as [|a others]; simpl;
      [split; [discriminate | split; trivial]|].
    split; [|split; [discriminate | reflexivity]].
    intros out0 [= <-]. split; reflexivity.
Qed.

Lemma limit_changes_length_and_closure_only_witness :
  fst (load_video_node Sample.clip_path (Sample.clip Sample.interleaved)
         true 7)
  = inr (Sample.loaded true 7 (Z.min 240 7) Sample.interleaved).
Proof.
  assert (L : fst (load_video_node Sample.clip_path
                     (Sample.clip Sample.interleaved) false 10)
              = inr (Sample.loaded false 10 240 Sample.interleaved))
    by (vm_compute; reflexivity).
  exact (proj2 (proj1 (limit_changes_length_and_closure_only Sample.clip_path
                         (Sample.clip Sample.interleaved) 10 7) _ L)).
Defined.

Lemma round_half_even_near n d :
  2 * round_half_even (n # d) * Z.pos d - Z.pos d <= 2 * n
  <= 2 * round_half_even (n # d) * Z.pos d + Z.pos d.
Proof.
  unfold round_half_even. cbn [Qnum Qden].
  pose proof (Z.div_mod n (Z.pos d) ltac:(lia)) as E.
  pose proof (Z.mod_pos_bound n (Z.pos d) ltac:(lia)) as B.
  revert E B. generalize (n / Z.pos d) (n mod Z.pos d). intros fl r E B.
  destruct (Z.compare_spec (2 * r) (Z.pos d)) as [C|C|C];
    [destruct (Z.even fl)| |]; nia.
Qed.

Lemma round_fraction2_near q :
  (q - (1 # 200) <= round_fraction2 q)%Q /\
  (round_fraction2 q <= q + (1 # 200))%Q.
Proof.
  unfold round_fraction2. rewrite Qred_correct.
  destruct q as [n d].
  pose proof (round_half_even_near (n * 100) d) as N.
  replace ((n # d) * inject_Z shift2)%Q with (n * 100 # d * 1)%Q by reflexivity.
  rewrite Pos.mul_1_r.
  revert N. generalize (round_half_even (n * 100 # d)). intros k N.
  unfold Qle, Qminus, Qplus, Qopp. simpl.
  rewrite !Pos2Z.inj_mul. nia.
Qed.

(** X12.  A frame rate taken from the codec context (the first usable of
    its frame rate and its rate) is returned as a fraction with two
    decimals that lies within 0.005 of the candidate. *)
Theorem codec_rate_is_rounded_to_the_nearest_hundredth
    (v : Av.video_stream) (q : Q) :
  first_usable [Av.framerate (Av.video_codec_context v);
                Av.rate (Av.video_codec_context v)] = Some q ->
  exists k,
    resolve_fps v = inr (PyFraction (Qred (k # 100))) /\
    (q - (1 # 200) <= k # 100)%Q /\ (k # 100 <= q + (1 # 200))%Q.
Proof.
  rewrite first_usable_pair, resolve_fps_cases.
  destruct (truthy (py_or _ _)); [|discriminate].
  intros ->. exists (round_half_even (q * inject_Z shift2)).
  split; [reflexivity|].
  pose proof (round_fraction2_near q) as [L U].
  unfold round_fraction2 in L, U. rewrite Qred_correct in L, U.
  now split.
Qed.

Lemma codec_rate_is_rounded_to_the_nearest_hundredth_witness :
  exists k,
    resolve_fps (Sample.rates (Some (30000 # 1001)) None None None None)
    = inr (PyFraction (Qred (k # 100))) /\
    ((30000 # 1001) - (1 # 200) <= k # 100)%Q /\
    (k # 100 <= (30000 # 1001) + (1 # 200))%Q.
Proof.
  apply (codec_rate_is_rounded_to_the_nearest_hundredth
           (Sample.rates (Some (30000 # 1001)) None None None None)
           (30000 # 1001)).
  reflexivity.
Defined.

Lemma limit_kept_on_single_frames_witness :
  limit_respected 1
    (emitted 9 (Sample.limited 1)
       (iterator (Sample.opened Sample.interleaved))).
Proof.
  apply (limit_kept_on_single_frames 1 Sample.aac
           (Sample.opened Sample.interleaved) 9).
  - lia.
  - repeat constructor.
Defined.
